(** * k8s-healer: the remediation engine, embedded and verified

    A shallow embedding of the Go sources of k8s-healer:

    - [util.IsUnhealthy], [util.GetHealReason]      (package util)
    - [Healer], [checkAndHealPod], [triggerPodDeletion],
      [startHealCacheCleaner], [Watch]               (package healer)
    - [resolveWildcardNamespaces], [startHealer]     (cmd/main.go)

    Go values are modelled as follows.  Strings are [string] (byte
    sequences, as in Go).  [int32] and [int64] values are [Z]; the one
    place where the code does arithmetic that can leave the 64-bit range
    ([2*h.HealCooldown]) has its wrap-around written out ([wrap64]), and
    [time.Time.Sub] saturates as in the Go runtime.  The map
    [HealedPods map[string]time.Time] is a [gmap string Z].  What the
    code prints and which calls it makes are recorded, in program order,
    in a list of [Action]s. *)

From Stdlib Require Import ZArith Lia Ascii DecimalString.
From stdpp Require Import gmap strings list fin_maps.

Open Scope Z_scope.

(** ** Kubernetes API objects (k8s.io/api/core/v1), the fields the code reads *)

Module v1.

Record ContainerStateWaiting := {
  Reason : string;
  Message : string
}.

(** [Waiting] is a pointer in Go: [None] is [nil]. *)
Record ContainerState := {
  Waiting : option ContainerStateWaiting
}.

(** [RestartCount] is an [int32]. *)
Record ContainerStatus := {
  State : ContainerState;
  RestartCount : Z
}.

Record OwnerReference := {
  Kind : string;
  OwnerName : string
}.

Record PodStatus := {
  ContainerStatuses : list ContainerStatus
}.

Record Pod := {
  Namespace : string;
  Name : string;
  OwnerReferences : list OwnerReference;
  Status : PodStatus
}.

End v1.

Import v1.

(** ** What the program does, as a trace *)

(** One constructor per [fmt.Printf] of the engine and per call or map
    access the claims speak about.  The elapsed-seconds figure of the
    [SKIP] line is a formatted float and is left out. *)
Inductive Action :=
| LogCheck (ns name : string) (restarts : Z)
| LogSkip (podKey : string)
| LogHealRequired (podKey reason : string)
| LogDeleteFail (ns name : string) (err : string)
| LogDeleteSuccess (ns name : string)
| LogHealComplete
| ActLookup (podKey : string)
| ActClassify (ns name : string)
| ActDelete (ns name : string)
| ActRecord (podKey : string) (at_ : Z).

Global Instance Action_eq_dec : EqDecision Action.
Proof. solve_decision. Defined.

(** ** Package util *)

Module util.

(** [fmt.Sprintf("%d", n)] for an integer: decimal digits, a leading
    minus sign for negatives. *)
Definition fmt_d (n : Z) : string := NilZero.string_of_int (Z.to_int n).

Definition DefaultRestartThreshold : Z := 3.

(** [status.State.Waiting != nil &&
     status.State.Waiting.Reason == "CrashLoopBackOff"] *)
Definition waitingCrashLoop (status : ContainerStatus) : bool :=
  match Waiting (State status) with
  | Some w => String.eqb (Reason w) "CrashLoopBackOff"
  | None => false
  end.

(** The loop of [IsUnhealthy]: the result and the line it prints. *)
Fixpoint IsUnhealthy_range (ns name : string) (statuses : list ContainerStatus)
  : bool * list Action :=
  match statuses with
  | [] => (false, [])
  | status :: rest =>
      if waitingCrashLoop status then
        if DefaultRestartThreshold <=? RestartCount status then
          (true, [LogCheck ns name (RestartCount status)])
        else IsUnhealthy_range ns name rest
      else IsUnhealthy_range ns name rest
  end.

Definition IsUnhealthy (pod : Pod) : bool * list Action :=
  IsUnhealthy_range (Namespace pod) (Name pod) (ContainerStatuses (Status pod)).

Fixpoint GetHealReason_range (statuses : list ContainerStatus) : string :=
  match statuses with
  | [] => "Unspecified Failure"
  | status :: rest =>
      if waitingCrashLoop status then
        if DefaultRestartThreshold <=? RestartCount status then
          "Persistent CrashLoopBackOff (Restarts: " +:+ fmt_d (RestartCount status) +:+ ")"
        else GetHealReason_range rest
      else GetHealReason_range rest
  end.

Definition GetHealReason (pod : Pod) : string :=
  GetHealReason_range (ContainerStatuses (Status pod)).

End util.

(** The classifier of the engine: [checkAndHealPod] asks [IsUnhealthy]
    and, when it says yes, [GetHealReason]. *)
Inductive Classification :=
| Healthy
| Unhealthy (reason : string).

Definition classify (pod : Pod) : Classification :=
  if (util.IsUnhealthy pod).1 then Unhealthy (util.GetHealReason pod) else Healthy.

(** A container status that counts against the Pod. *)
Definition qualifies (status : ContainerStatus) : Prop :=
  (∃ w, Waiting (State status) = Some w ∧ Reason w = "CrashLoopBackOff")
  ∧ util.DefaultRestartThreshold ≤ RestartCount status.

(** The same as a test: the condition both loops of package util check. *)
Definition qualifiesb (status : ContainerStatus) : bool :=
  util.waitingCrashLoop status
  && (util.DefaultRestartThreshold <=? RestartCount status).

(** ** Time (package time) *)

(** A [time.Time] obtained from [time.Now()] carries a monotonic clock
    reading, a signed 64-bit count of nanoseconds; every time value of
    the engine comes from [time.Now()], so a time is that reading.  A
    [time.Duration] is a signed 64-bit count of nanoseconds. *)
Module time.

Definition minDuration : Z := - 2 ^ 63.
Definition maxDuration : Z := 2 ^ 63 - 1.

Definition int64 (z : Z) : Prop := minDuration ≤ z ≤ maxDuration.

(** Two's complement wrap-around of 64-bit signed arithmetic. *)
Definition wrap64 (z : Z) : Z := (z + 2 ^ 63) mod 2 ^ 64 - 2 ^ 63.

(** [t.Sub(u)] on monotonic readings ([subMono]): the difference,
    saturated at the largest and smallest duration. *)
Definition Sub (t u : Z) : Z :=
  let d := wrap64 (t - u) in
  if (d <? 0) && (u <? t) then maxDuration
  else if (0 <? d) && (t <? u) then minDuration
  else d.

(** A clock reading of a running process: the monotonic clock starts
    near zero when the process does. *)
Definition reading (t : Z) : Prop := 0 ≤ t ≤ maxDuration.

Definition Second : Z := 1000000000.
Definition Minute : Z := 60 * Second.

End time.

(** ** Package strings: the functions cmd/main.go calls *)

(** All three work on bytes.  For [Split] on [","] and [Contains] of
    ["*"] that is exact also on UTF-8 input.  [TrimSpace] is modelled on
    the ASCII white space; the theorems below that hold for every input
    take the trimming function as a parameter instead. *)
Module strings.

(** [len(s) == 0], the test for the empty string *)
Definition is_empty (s : string) : bool :=
  match s with EmptyString => true | _ => false end.

Definition comma : ascii := ascii_of_nat 44.

(** [strings.Split(s, ",")] *)
Fixpoint Split_comma (s : string) : list string :=
  match s with
  | EmptyString => [EmptyString]
  | String c rest =>
      if Ascii.eqb c comma then EmptyString :: Split_comma rest
      else match Split_comma rest with
           | first :: others => String c first :: others
           | [] => [String c EmptyString]
           end
  end.

(** [strings.Contains(s, string(c))] *)
Fixpoint Contains_byte (c : ascii) (s : string) : bool :=
  match s with
  | EmptyString => false
  | String c' rest => Ascii.eqb c' c || Contains_byte c rest
  end.

Definition asciiSpace (c : ascii) : bool :=
  let n := nat_of_ascii c in
  ((9 <=? n) && (n <=? 13) || (n =? 32))%nat.

Fixpoint TrimLeft (s : string) : string :=
  match s with
  | EmptyString => EmptyString
  | String c rest => if asciiSpace c then TrimLeft rest else s
  end.

Fixpoint TrimRight (s : string) : string :=
  match s with
  | EmptyString => EmptyString
  | String c rest =>
      match TrimRight rest with
      | EmptyString => if asciiSpace c then EmptyString else String c EmptyString
      | kept => String c kept
      end
  end.

Definition TrimSpace (s : string) : string := TrimRight (TrimLeft s).

End strings.

(** ** Package path/filepath: [Match] *)

(** The matcher of the Go library (match.go, Unix), on bytes: for names
    and patterns in ASCII, which the names of Kubernetes namespaces
    are, bytes and runes coincide.  [None] stands for [ErrBadPattern].
    The loops that consume the pattern run on a count of its bytes. *)
Module filepath.

Definition Separator : ascii := ascii_of_nat 47.
Definition star : ascii := ascii_of_nat 42.
Definition backslash : ascii := ascii_of_nat 92.
Definition lbracket : ascii := ascii_of_nat 91.
Definition rbracket : ascii := ascii_of_nat 93.
Definition caret : ascii := ascii_of_nat 94.
Definition dash : ascii := ascii_of_nat 45.
Definition question : ascii := ascii_of_nat 63.

Definition ErrBadPattern : string := "syntax error in pattern".

Fixpoint skipStars (pattern : string) : string :=
  match pattern with
  | String c rest => if Ascii.eqb c star then skipStars rest else pattern
  | EmptyString => EmptyString
  end.

(** The [Scan] loop of [scanChunk]: the chunk and what follows it. *)
Fixpoint scan (inrange : bool) (pattern : string) : string * string :=
  match pattern with
  | EmptyString => (EmptyString, EmptyString)
  | String c rest =>
      if Ascii.eqb c backslash then
        match rest with
        | String c' rest' =>
            let '(chunk, after) := scan inrange rest' in
            (String c (String c' chunk), after)
        | EmptyString => (String c EmptyString, EmptyString)
        end
      else if Ascii.eqb c lbracket then
        let '(chunk, after) := scan true rest in (String c chunk, after)
      else if Ascii.eqb c rbracket then
        let '(chunk, after) := scan false rest in (String c chunk, after)
      else if Ascii.eqb c star && negb inrange then (EmptyString, pattern)
      else let '(chunk, after) := scan inrange rest in (String c chunk, after)
  end.

Definition scanChunk (pattern : string) : bool * string * string :=
  let starred := match pattern with
                 | String c _ => Ascii.eqb c star
                 | EmptyString => false
                 end in
  let '(chunk, after) := scan false (skipStars pattern) in
  (starred, chunk, after).

Definition getEsc (chunk : string) : option (ascii * string) :=
  match chunk with
  | EmptyString => None
  | String c rest =>
      if Ascii.eqb c dash || Ascii.eqb c rbracket then None
      else
        match (if Ascii.eqb c backslash then rest else chunk) with
        | EmptyString => None
        | String r nchunk => if strings.is_empty nchunk then None else Some (r, nchunk)
        end
  end.

Definition byte_le (a b : ascii) : bool := (nat_of_ascii a <=? nat_of_ascii b)%nat.

(** The loop that parses the ranges of a character class. *)
Fixpoint ranges (fuel : nat) (r : ascii) (chunk : string) (nrange : nat)
  (matched : bool) : option (bool * string) :=
  match fuel with
  | O => None
  | S fuel' =>
      let parse :=
        match getEsc chunk with
        | None => None
        | Some (lo, chunk1) =>
            let bounds :=
              match chunk1 with
              | String c rest1 =>
                  if Ascii.eqb c dash then getEsc rest1 else Some (lo, chunk1)
              | EmptyString => Some (lo, chunk1)
              end in
            match bounds with
            | None => None
            | Some (hi, chunk2) =>
                ranges fuel' r chunk2 (S nrange)
                  (matched || (byte_le lo r && byte_le r hi))
            end
        end in
      match chunk with
      | String c rest =>
          if Ascii.eqb c rbracket && (0 <? nrange)%nat then Some (matched, rest)
          else parse
      | EmptyString => parse
      end
  end.

(** The loop of [matchChunk]: [Some (rest, ok)], or [None] for a
    malformed chunk. *)
Fixpoint matchChunk_loop (fuel : nat) (failed : bool) (chunk s : string)
  : option (string * bool) :=
  match fuel with
  | O => None
  | S fuel' =>
      match chunk with
      | EmptyString => Some (if failed then (EmptyString, false) else (s, true))
      | String c rest =>
          let failed := failed || strings.is_empty s in
          if Ascii.eqb c lbracket then
            let '(r, s1) :=
              match s with
              | String s0 s' => if failed then (Ascii.zero, s) else (s0, s')
              | EmptyString => (Ascii.zero, s)
              end in
            let '(negated, chunk1) :=
              match rest with
              | String c1 rest1 =>
                  if Ascii.eqb c1 caret then (true, rest1) else (false, rest)
              | EmptyString => (false, rest)
              end in
            match ranges (S (String.length chunk1)) r chunk1 0 false with
            | None => None
            | Some (matched, chunk2) =>
                matchChunk_loop fuel' (failed || Bool.eqb matched negated) chunk2 s1
            end
          else if Ascii.eqb c question then
            match s with
            | String s0 s' =>
                if failed then matchChunk_loop fuel' failed rest s
                else matchChunk_loop fuel' (Ascii.eqb s0 Separator) rest s'
            | EmptyString => matchChunk_loop fuel' failed rest s
            end
          else
            match (if Ascii.eqb c backslash then rest else chunk) with
            | EmptyString => None
            | String c0 rest0 =>
                match s with
                | String s0 s' =>
                    if failed then matchChunk_loop fuel' failed rest0 s
                    else matchChunk_loop fuel' (negb (Ascii.eqb c0 s0)) rest0 s'
                | EmptyString => matchChunk_loop fuel' failed rest0 s
                end
            end
      end
  end.

Definition matchChunk (chunk s : string) : option (string * bool) :=
  matchChunk_loop (S (String.length chunk)) false chunk s.

(** What the loop over the bytes a star may skip ends with. *)
Inductive Skip :=
| Continue (name : string)
| Bad
| Exhausted.

Fixpoint skipLoop (chunk : string) (last : bool) (name : string) : Skip :=
  match name with
  | EmptyString => Exhausted
  | String c rest =>
      if Ascii.eqb c Separator then Exhausted
      else
        match matchChunk chunk rest with
        | None => Bad
        | Some (t, true) =>
            if last && negb (strings.is_empty t) then skipLoop chunk last rest
            else Continue t
        | Some (_, false) => skipLoop chunk last rest
        end
  end.

(** The check of the rest of the pattern before [false, nil]. *)
Fixpoint wellFormed (fuel : nat) (pattern : string) : bool :=
  match fuel with
  | O => true
  | S fuel' =>
      if strings.is_empty pattern then true
      else
        let '(_, chunk, after) := scanChunk pattern in
        match matchChunk chunk EmptyString with
        | None => false
        | Some _ => wellFormed fuel' after
        end
  end.

Fixpoint Match_loop (fuel : nat) (pattern name : string) : bool * option string :=
  match fuel with
  | O => (false, Some ErrBadPattern)
  | S fuel' =>
      if strings.is_empty pattern then (strings.is_empty name, None)
      else
        let '(starred, chunk, after) := scanChunk pattern in
        if starred && strings.is_empty chunk then
          (negb (strings.Contains_byte Separator name), None)
        else
          let giveUp :=
            if wellFormed (S (String.length after)) after then (false, None)
            else (false, Some ErrBadPattern) in
          let skip :=
            if starred then
              match skipLoop chunk (strings.is_empty after) name with
              | Continue t => Match_loop fuel' after t
              | Bad => (false, Some ErrBadPattern)
              | Exhausted => giveUp
              end
            else giveUp in
          match matchChunk chunk name with
          | None => (false, Some ErrBadPattern)
          | Some (t, true) =>
              if strings.is_empty t || negb (strings.is_empty after) then Match_loop fuel' after t
              else skip
          | Some (_, false) => skip
          end
  end.

Definition Match (pattern name : string) : bool * option string :=
  Match_loop (S (String.length pattern)) pattern name.

End filepath.

(** ** The cluster, as far as start-up sees it *)

(** What the client library answers: an error, or nothing, for building
    the configuration and the client set; an error, or the names of the
    namespaces in the order of [nsList.Items], for the listing. *)
Module kube.

Record Cluster := {
  BuildConfigFromFlags : string → option string;
  NewForConfig : option string;
  ListNamespaces : string + list string
}.

End kube.

(** ** Results *)

(** A Go function that returns a value and an [error]. *)
Inductive Result (A : Type) :=
| Ok (value : A)
| Err (msg : string).

Arguments Ok {A} value.
Arguments Err {A} msg.

(** ** Package healer (the revision with the cooldown store) *)

Module healer.

(** The result of the API call [Pods(ns).Delete]: [None] is a [nil]
    error. *)
Inductive APIError :=
| NotFound
| OtherError (msg : string).

Definition Error (e : APIError) : string :=
  match e with
  | NotFound => "pods not found"
  | OtherError msg => msg
  end.

(** [ClientSet] and [StopCh] are handles on the outside world; what the
    cluster and the clock answer is given to each call below. *)
Record Healer := {
  Namespaces : list string;
  HealedPods : gmap string Z;
  HealCooldown : Z
}.

Definition set_HealedPods (h : Healer) (m : gmap string Z) : Healer :=
  {| Namespaces := Namespaces h; HealedPods := m; HealCooldown := HealCooldown h |}.

Definition set_Namespaces (h : Healer) (l : list string) : Healer :=
  {| Namespaces := l; HealedPods := HealedPods h; HealCooldown := HealCooldown h |}.

Definition set_HealCooldown (h : Healer) (d : Z) : Healer :=
  {| Namespaces := Namespaces h; HealedPods := HealedPods h; HealCooldown := d |}.

(** [NewHealer]: the client set comes from the cluster, the store
    starts empty, the cooldown at ten minutes. *)
Definition NewHealer (cluster : kube.Cluster) (kubeconfigPath : string)
  (namespaces : list string) : Result Healer :=
  match (if negb (strings.is_empty kubeconfigPath)
         then kube.BuildConfigFromFlags cluster kubeconfigPath
         else kube.BuildConfigFromFlags cluster EmptyString) with
  | Some err => Err ("failed to build Kubernetes config: " +:+ err)
  | None =>
      match kube.NewForConfig cluster with
      | Some err => Err ("failed to create Kubernetes clientset: " +:+ err)
      | None =>
          Ok {| Namespaces := namespaces;
                HealedPods := ∅;
                HealCooldown := 10 * time.Minute |}
      end
  end.

(** What the outside world answers during one call of
    [checkAndHealPod]: the clock read by [time.Since] (line 119), the
    error of the delete call (line 168), the clock read by [time.Now]
    (line 135). *)
Record World := {
  sinceNow : Z;
  deleteErr : option APIError;
  recordNow : Z
}.

Definition set_deleteErr (w : World) (err : option APIError) : World :=
  {| sinceNow := sinceNow w; deleteErr := err; recordNow := recordNow w |}.

(** [fmt.Sprintf("%s/%s", pod.Namespace, pod.Name)] *)
Definition podKey (pod : Pod) : string := Namespace pod +:+ "/" +:+ Name pod.

(** Lines 118-119: the cooldown check, [now] being the clock that
    [time.Since] reads. *)
Definition shouldSkip (h : Healer) (key : string) (now : Z) : bool :=
  match HealedPods h !! key with
  | Some lastHeal => time.Sub now lastHeal <? HealCooldown h
  | None => false
  end.

Definition triggerPodDeletion (pod : Pod) (err : option APIError) : list Action :=
  ActDelete (Namespace pod) (Name pod) ::
  match err with
  | Some e => [LogDeleteFail (Namespace pod) (Name pod) (Error e)]
  | None => [LogDeleteSuccess (Namespace pod) (Name pod)]
  end.

(** Lines 126-138. *)
Definition healIfUnhealthy (h : Healer) (pod : Pod) (w : World) : Healer * list Action :=
  let '(unhealthy, printed) := util.IsUnhealthy pod in
  if unhealthy then
    let reason := util.GetHealReason pod in
    (set_HealedPods h (<[podKey pod := recordNow w]> (HealedPods h)),
     ActClassify (Namespace pod) (Name pod) :: printed
       ++ [LogHealRequired (podKey pod) reason]
       ++ triggerPodDeletion pod (deleteErr w)
       ++ [ActRecord (podKey pod) (recordNow w); LogHealComplete])
  else (h, ActClassify (Namespace pod) (Name pod) :: printed).

Definition checkAndHealPod (h : Healer) (pod : Pod) (w : World) : Healer * list Action :=
  if (length (OwnerReferences pod) =? 0)%nat then (h, [])
  else if shouldSkip h (podKey pod) (sinceNow w) then
    (h, [ActLookup (podKey pod); LogSkip (podKey pod)])
  else
    let '(h', acts) := healIfUnhealthy h pod w in
    (h', ActLookup (podKey pod) :: acts).

(** Line 149: [now.Sub(t) > 2*h.HealCooldown], the product in 64 bits. *)
Definition expired (now cooldown t : Z) : bool :=
  time.wrap64 (2 * cooldown) <? time.Sub now t.

(** The body of the [ticker.C] case of [startHealCacheCleaner], over
    the entries in the order the [range] visits them. *)
Fixpoint sweep_range (now cooldown : Z) (entries : list (string * Z))
  (m : gmap string Z) : gmap string Z :=
  match entries with
  | [] => m
  | (key, t) :: rest =>
      sweep_range now cooldown rest
        (if expired now cooldown t then delete key m else m)
  end.

Definition sweep (h : Healer) (now : Z) : Healer :=
  set_HealedPods h
    (sweep_range now (HealCooldown h) (map_to_list (HealedPods h)) (HealedPods h)).

(** The goroutine of [startHealCacheCleaner]: what its [select]
    receives, one after the other. *)
Inductive Select :=
| TickerC (now : Z)
| StopCh.

Fixpoint cleaner (h : Healer) (received : list Select) : Healer :=
  match received with
  | [] => h
  | TickerC now :: rest => cleaner (sweep h now) rest
  | StopCh :: _ => h
  end.

(** [metav1.NamespaceAll] *)
Definition NamespaceAll : string := EmptyString.

(** [Watch], up to the point where it blocks: the namespace list it
    settles on and one watcher per entry of it. *)
Definition Watch (h : Healer) : Healer * list string :=
  let h' := if (length (Namespaces h) =? 0)%nat
            then set_Namespaces h [NamespaceAll] else h in
  (h', Namespaces h').

End healer.

(** ** Package healer, as in pkg/healer/healer.go (no cooldown store) *)

Module healer_pkg.

Definition triggerPodDeletion (pod : Pod) (err : option healer.APIError) : list Action :=
  ActDelete (Namespace pod) (Name pod) ::
  match err with
  | Some e => [LogDeleteFail (Namespace pod) (Name pod) (healer.Error e)]
  | None => [LogDeleteSuccess (Namespace pod) (Name pod)]
  end.

Definition checkAndHealPod (pod : Pod) (err : option healer.APIError) : list Action :=
  if (length (OwnerReferences pod) =? 0)%nat then []
  else
    let '(unhealthy, printed) := util.IsUnhealthy pod in
    if unhealthy then
      let reason := util.GetHealReason pod in
      ActClassify (Namespace pod) (Name pod) :: printed
        ++ [LogHealRequired (Namespace pod +:+ "/" +:+ Name pod) reason]
        ++ triggerPodDeletion pod err
        ++ [LogHealComplete]
    else ActClassify (Namespace pod) (Name pod) :: printed.

End healer_pkg.

(** ** Several update handlers on one store *)

(** Each watched namespace has its own informer, and each informer
    calls [checkAndHealPod] from its own goroutine, on the one [Healer].
    A call is cut at its accesses to [HealedPods]: the read of line 118,
    the delete call of line 132, the write of line 135.  Nothing in the
    code keeps a second goroutine from running between two of them. *)
Module goroutines.

Import healer.

Inductive Pc :=
| AtEntry
| PastCheck
| PastDelete
| Returned.

Record Call := {
  pod : Pod;
  world : World;
  pc : Pc
}.

Definition at_pc (c : Call) (p : Pc) : Call :=
  {| pod := pod c; world := world c; pc := p |}.

Definition call (p : Pod) (w : World) : Call :=
  {| pod := p; world := w; pc := AtEntry |}.

(** One stretch of [checkAndHealPod], from one cut to the next. *)
Definition advance (h : Healer) (c : Call) : option (Healer * Call * list Action) :=
  match pc c with
  | AtEntry =>
      if (length (OwnerReferences (pod c)) =? 0)%nat then
        Some (h, at_pc c Returned, [])
      else if shouldSkip h (podKey (pod c)) (sinceNow (world c)) then
        Some (h, at_pc c Returned, [ActLookup (podKey (pod c)); LogSkip (podKey (pod c))])
      else Some (h, at_pc c PastCheck, [ActLookup (podKey (pod c))])
  | PastCheck =>
      let '(unhealthy, printed) := util.IsUnhealthy (pod c) in
      if unhealthy then
        Some (h, at_pc c PastDelete,
              ActClassify (Namespace (pod c)) (Name (pod c)) :: printed
                ++ [LogHealRequired (podKey (pod c)) (util.GetHealReason (pod c))]
                ++ triggerPodDeletion (pod c) (deleteErr (world c)))
      else
        Some (h, at_pc c Returned,
              ActClassify (Namespace (pod c)) (Name (pod c)) :: printed)
  | PastDelete =>
      Some (set_HealedPods h (<[podKey (pod c) := recordNow (world c)]> (HealedPods h)),
            at_pc c Returned,
            [ActRecord (podKey (pod c)) (recordNow (world c)); LogHealComplete])
  | Returned => None
  end.

Record State := {
  shared : Healer;
  calls : list Call;
  emitted : list Action
}.

(** The scheduler picks any call that has not returned. *)
Inductive step : State → State → Prop :=
| step_call (s : State) (i : nat) (c c' : Call) (h' : Healer) (acts : list Action) :
    calls s !! i = Some c →
    advance (shared s) c = Some (h', c', acts) →
    step s {| shared := h'; calls := <[i := c']> (calls s); emitted := emitted s ++ acts |}.

(** The same, as a function of the schedule (the indices picked). *)
Fixpoint run (schedule : list nat) (s : State) : State :=
  match schedule with
  | [] => s
  | i :: rest =>
      match calls s !! i with
      | Some c =>
          match advance (shared s) c with
          | Some (h', c', acts) =>
              run rest {| shared := h'; calls := <[i := c']> (calls s);
                          emitted := emitted s ++ acts |}
          | None => run rest s
          end
      | None => run rest s
      end
  end.

End goroutines.

(** ** cmd/main.go *)

Module main.

Import kube.

Section Resolution.

(** [strings.TrimSpace] and [filepath.Match], and the order in which a
    [range] over the map of resolved names yields its keys, which the Go
    runtime chooses. *)
Variable TrimSpace : string → string.
Variable Match : string → string → bool * option string.
Variable rangeKeys : gmap string bool → list string.

(** Lines 109-119: one namespace against all patterns. *)
Fixpoint matchPatterns (name : string) (patterns : list string)
  (resolved : gmap string bool) : gmap string bool :=
  match patterns with
  | [] => resolved
  | pattern :: rest =>
      match Match pattern name with
      | (_, Some _) => matchPatterns name rest resolved
      | (true, None) => matchPatterns name rest (<[name := true]> resolved)
      | (false, None) => matchPatterns name rest resolved
      end
  end.

(** Lines 108-120. *)
Fixpoint matchNamespaces (items : list string) (patterns : list string)
  (resolved : gmap string bool) : gmap string bool :=
  match items with
  | [] => resolved
  | name :: rest => matchNamespaces rest patterns (matchPatterns name patterns resolved)
  end.

Definition resolveWildcardNamespaces (cluster : Cluster)
  (kubeconfigPath namespacesInput : string) : Result (list string) :=
  if strings.is_empty namespacesInput then Ok []
  else
    let patterns := map TrimSpace (strings.Split_comma namespacesInput) in
    if negb (existsb (strings.Contains_byte filepath.star) patterns) then Ok patterns
    else
      match (if negb (strings.is_empty kubeconfigPath)
             then BuildConfigFromFlags cluster kubeconfigPath
             else BuildConfigFromFlags cluster EmptyString) with
      | Some err => Err ("failed to build Kubernetes config for resolution: " +:+ err)
      | None =>
          match NewForConfig cluster with
          | Some err =>
              Err ("failed to create Kubernetes clientset for resolution: " +:+ err)
          | None =>
              match ListNamespaces cluster with
              | inl err =>
                  Err ("failed to list namespaces for wildcard resolution: " +:+ err)
              | inr items => Ok (rangeKeys (matchNamespaces items patterns ∅))
              end
          end
      end.

(** How [startHealer] leaves start-up: [os.Exit(1)], or the healer that
    [Watch] runs with and the namespaces it starts a watcher for. *)
Inductive Started :=
| Exit1 (msg : string)
| Watching (h : healer.Healer) (watched : list string).

Definition startHealer (cluster : Cluster) (kubeconfigPath namespaces : string)
  (healCooldown : Z) : Started :=
  match resolveWildcardNamespaces cluster kubeconfigPath namespaces with
  | Err msg => Exit1 ("Error resolving namespaces: " +:+ msg)
  | Ok nsList =>
      match healer.NewHealer cluster kubeconfigPath nsList with
      | Err msg => Exit1 ("Error setting up Kubernetes client: " +:+ msg)
      | Ok h =>
          let '(h', watched) := healer.Watch (healer.set_HealCooldown h healCooldown) in
          Watching h' watched
      end
  end.

End Resolution.

(** A pattern of the input matches a name. *)
Definition matches (Match : string → string → bool * option string)
  (patterns : list string) (name : string) : Prop :=
  ∃ pattern, pattern ∈ patterns ∧ Match pattern name = (true, None).

End main.

(** ** What a trace shows *)

Definition is_delete (a : Action) : bool :=
  match a with ActDelete _ _ => true | _ => false end.

Definition is_lookup (a : Action) : bool :=
  match a with ActLookup _ => true | _ => false end.

Definition is_classify (a : Action) : bool :=
  match a with ActClassify _ _ => true | _ => false end.

Definition is_delete_failure (a : Action) : bool :=
  match a with LogDeleteFail _ _ _ => true | _ => false end.

(** The delete calls of a trace, in order. *)
Definition deletions (acts : list Action) : list Action := List.filter is_delete acts.

(** ** The engine fed one input after the other *)

Module serial.

Import healer.

Inductive Input :=
| PodUpdated (pod : Pod) (w : World)
| Tick (now : Z).

Fixpoint serve (h : Healer) (inputs : list Input) : Healer * list Action :=
  match inputs with
  | [] => (h, [])
  | PodUpdated pod w :: rest =>
      let '(h1, acts1) := checkAndHealPod h pod w in
      let '(h2, acts2) := serve h1 rest in
      (h2, acts1 ++ acts2)
  | Tick now :: rest => serve (sweep h now) rest
  end.

End serial.

(** ** The Pods of the scenarios of the specification *)

Module scenario.

Definition owners : list OwnerReference :=
  [{| Kind := "ReplicaSet"; OwnerName := "api-7d8f9" |}].

Definition crashLoop (restarts : Z) : ContainerStatus :=
  {| State := {| Waiting := Some {| Reason := "CrashLoopBackOff";
                                    Message := "back-off restarting failed container" |} |};
     RestartCount := restarts |}.

Definition running : ContainerStatus :=
  {| State := {| Waiting := None |}; RestartCount := 0 |}.

(** ns/api-1: owned, one container in CrashLoopBackOff. *)
Definition api_1 (restarts : Z) : Pod :=
  {| Namespace := "ns"; Name := "api-1"; OwnerReferences := owners;
     Status := {| ContainerStatuses := [crashLoop restarts] |} |}.

(** ns/api-1 again, recreated and running. *)
Definition api_1_running : Pod :=
  {| Namespace := "ns"; Name := "api-1"; OwnerReferences := owners;
     Status := {| ContainerStatuses := [running] |} |}.

(** ns/worker-2: no owner, ten restarts in CrashLoopBackOff. *)
Definition worker_2 : Pod :=
  {| Namespace := "ns"; Name := "worker-2"; OwnerReferences := [];
     Status := {| ContainerStatuses := [crashLoop 10] |} |}.

(** A healer as [NewHealer] makes it. *)
Definition fresh : healer.Healer :=
  {| healer.Namespaces := ["ns"]; healer.HealedPods := ∅;
     healer.HealCooldown := 10 * time.Minute |}.

(** The same after ns/api-1 was healed at second 5. *)
Definition healed : healer.Healer :=
  {| healer.Namespaces := ["ns"];
     healer.HealedPods := {[ "ns/api-1" := 5 * time.Second ]};
     healer.HealCooldown := 10 * time.Minute |}.

(** A healer whose cooldown is 2^62 nanoseconds, some 146 years. *)
Definition patient : healer.Healer :=
  {| healer.Namespaces := ["ns"];
     healer.HealedPods := {[ "ns/api-1" := 5 * time.Second ]};
     healer.HealCooldown := 2 ^ 62 |}.

(** A cluster with the namespaces app-dev, app-prod and infra, and a
    [range] that yields the keys of a map in the order of
    [map_to_list]. *)
Definition cluster : kube.Cluster :=
  {| kube.BuildConfigFromFlags := λ _, None;
     kube.NewForConfig := None;
     kube.ListNamespaces := inr ["app-dev"; "app-prod"; "infra"] |}.

Definition rangeKeys (m : gmap string bool) : list string := (map_to_list m).*1.

(** No [--kubeconfig] flag. *)
Definition kubeconfig : string := EmptyString.

Definition at_second (s : Z) (err : option healer.APIError) : healer.World :=
  {| healer.sinceNow := s * time.Second; healer.deleteErr := err;
     healer.recordNow := s * time.Second |}.

End scenario.

(** ** Runs and their clock *)

Module timing.

Import healer.

(** The times at which a trace records a heal of [key], in order. *)
Fixpoint record_times (key : string) (acts : list Action) : list Z :=
  match acts with
  | [] => []
  | ActRecord k t :: rest =>
      if String.eqb k key then t :: record_times key rest
      else record_times key rest
  | _ :: rest => record_times key rest
  end.

(** Successive times are at least [gap] apart. *)
Fixpoint spaced (gap : Z) (times : list Z) : Prop :=
  match times with
  | [] => True
  | t1 :: rest =>
      match rest with
      | [] => True
      | t2 :: _ => gap ≤ t2 - t1 ∧ spaced gap rest
      end
  end.

(** The clock of a run never goes back: each input reads it at or after
    [clock], the last reading before it, and within a call [time.Since]
    reads it before [time.Now] does. *)
Fixpoint timed (clock : Z) (inputs : list serial.Input) : Prop :=
  match inputs with
  | [] => True
  | serial.PodUpdated _ w :: rest =>
      clock ≤ sinceNow w ∧ sinceNow w ≤ recordNow w
      ∧ time.reading (recordNow w) ∧ timed (recordNow w) rest
  | serial.Tick now :: rest =>
      clock ≤ now ∧ time.reading now ∧ timed now rest
  end.

(** Every entry of the store was written at a reading of the clock not
    after [clock]. *)
Definition written_by (clock : Z) (h : Healer) : Prop :=
  ∀ k t, HealedPods h !! k = Some t → 0 ≤ t ≤ clock.

End timing.

(** ** Interleavings: the invariant *)

(** What every state of an interleaving satisfies: the calls are those
    started, a call past its check is for an owned Pod, and every delete
    issued is for the owned, unhealthy Pod of one of the calls. *)
Definition safe (start : list goroutines.Call) (s : goroutines.State) : Prop :=
  (∀ j c, goroutines.calls s !! j = Some c →
     (∃ c0, start !! j = Some c0 ∧ goroutines.pod c0 = goroutines.pod c)
     ∧ (goroutines.pc c = goroutines.PastCheck →
        OwnerReferences (goroutines.pod c) ≠ []))
  ∧ (∀ ns name, ActDelete ns name ∈ goroutines.emitted s →
       ∃ j c0, start !! j = Some c0
               ∧ Namespace (goroutines.pod c0) = ns
               ∧ Name (goroutines.pod c0) = name
               ∧ OwnerReferences (goroutines.pod c0) ≠ []
               ∧ (util.IsUnhealthy (goroutines.pod c0)).1 = true).

(** ** Further stores for examples *)

Module stores.

(** ns/api-1 healed at second 5, ns/db-0 at second 700. *)
Definition two_healed : healer.Healer :=
  {| healer.Namespaces := ["ns"];
     healer.HealedPods := {[ "ns/api-1" := 5 * time.Second;
                             "ns/db-0" := 700 * time.Second ]};
     healer.HealCooldown := 10 * time.Minute |}.

(** ns/api-1 healed at second 5, no cooldown. *)
Definition impatient : healer.Healer :=
  {| healer.Namespaces := ["ns"];
     healer.HealedPods := {[ "ns/api-1" := 5 * time.Second ]};
     healer.HealCooldown := 0 |}.

(** A cluster that cannot be reached. *)
Definition unreachable : kube.Cluster :=
  {| kube.BuildConfigFromFlags := λ _, Some "invalid configuration";
     kube.NewForConfig := Some "no client";
     kube.ListNamespaces := inl "connection refused" |}.

End stores.

(** * Theorems *)

(** ** The classifier *)

Section Classifier.

Import util.

Lemma waitingCrashLoop_spec (status : ContainerStatus) :
  waitingCrashLoop status = true ↔
  ∃ w, Waiting (State status) = Some w ∧ Reason w = "CrashLoopBackOff".
Proof.
  unfold waitingCrashLoop. destruct (Waiting (State status)) as [w|].
  - rewrite String.eqb_eq. split.
    + intros Hr. exists w. by split.
    + intros (w' & Hw & Hr). by simplify_eq.
  - split; [done|]. by intros (w' & Hw & _).
Qed.

Lemma qualifiesb_spec (status : ContainerStatus) :
  qualifiesb status = true ↔ qualifies status.
Proof.
  unfold qualifiesb, qualifies.
  rewrite andb_true_iff, waitingCrashLoop_spec, Z.leb_le. done.
Qed.

Lemma qualifiesb_false (status : ContainerStatus) :
  qualifiesb status = false ↔ ¬ qualifies status.
Proof.
  rewrite <- qualifiesb_spec. destruct (qualifiesb status); split; congruence.
Qed.

Lemma IsUnhealthy_range_cons (ns name : string) (status : ContainerStatus)
  (rest : list ContainerStatus) :
  IsUnhealthy_range ns name (status :: rest) =
  if qualifiesb status then (true, [LogCheck ns name (RestartCount status)])
  else IsUnhealthy_range ns name rest.
Proof.
  unfold qualifiesb. simpl.
  destruct (waitingCrashLoop status); [|done].
  by destruct (DefaultRestartThreshold <=? RestartCount status).
Qed.

Lemma GetHealReason_range_cons (status : ContainerStatus) (rest : list ContainerStatus) :
  GetHealReason_range (status :: rest) =
  if qualifiesb status
  then "Persistent CrashLoopBackOff (Restarts: " +:+ fmt_d (RestartCount status) +:+ ")"
  else GetHealReason_range rest.
Proof.
  unfold qualifiesb. simpl.
  destruct (waitingCrashLoop status); [|done].
  by destruct (DefaultRestartThreshold <=? RestartCount status).
Qed.

(** The loop says yes exactly when some status qualifies. *)
Lemma IsUnhealthy_range_true (ns name : string) (statuses : list ContainerStatus) :
  (IsUnhealthy_range ns name statuses).1 = true ↔ Exists qualifies statuses.
Proof.
  induction statuses as [|status rest IH].
  - simpl. rewrite Exists_nil. split; [done|tauto].
  - rewrite IsUnhealthy_range_cons, Exists_cons.
    destruct (qualifiesb status) eqn:Hq.
    + apply qualifiesb_spec in Hq. simpl. tauto.
    + apply qualifiesb_false in Hq. rewrite IH. tauto.
Qed.

(** Both loops stop at the first status that qualifies. *)
Lemma first_qualifying (ns name : string) (before after : list ContainerStatus)
  (status : ContainerStatus) :
  Forall (λ s, ¬ qualifies s) before → qualifies status →
  IsUnhealthy_range ns name (before ++ status :: after)
    = (true, [LogCheck ns name (RestartCount status)])
  ∧ GetHealReason_range (before ++ status :: after)
    = "Persistent CrashLoopBackOff (Restarts: " +:+ fmt_d (RestartCount status) +:+ ")".
Proof.
  intros Hbefore Hq. induction Hbefore as [|s before Hs _ IH]; simpl app.
  - rewrite IsUnhealthy_range_cons, GetHealReason_range_cons.
    apply qualifiesb_spec in Hq. by rewrite Hq.
  - rewrite IsUnhealthy_range_cons, GetHealReason_range_cons.
    apply qualifiesb_false in Hs. by rewrite Hs.
Qed.

(** C3.  A Pod is classified unhealthy exactly when one of its container
    statuses is waiting with reason "CrashLoopBackOff" and has restarted
    at least three times (the threshold).  The first such status, in the
    order of the list, gives the reason, "Persistent CrashLoopBackOff
    (Restarts: n)" with n its restart count in decimal; when no status
    qualifies the Pod is healthy. *)
Theorem C3_classification (pod : Pod) :
  DefaultRestartThreshold = 3
  ∧ (classify pod ≠ Healthy ↔
     ∃ status, status ∈ ContainerStatuses (Status pod) ∧ qualifies status)
  ∧ (∀ before status after,
       ContainerStatuses (Status pod) = before ++ status :: after →
       Forall (λ s, ¬ qualifies s) before → qualifies status →
       classify pod =
       Unhealthy ("Persistent CrashLoopBackOff (Restarts: "
                  +:+ fmt_d (RestartCount status) +:+ ")"))
  ∧ ((∀ status, status ∈ ContainerStatuses (Status pod) → ¬ qualifies status) →
     classify pod = Healthy).
Proof.
  split; [done|]. unfold classify, IsUnhealthy, GetHealReason.
  pose proof (IsUnhealthy_range_true (Namespace pod) (Name pod)
                (ContainerStatuses (Status pod))) as Htrue.
  rewrite Exists_exists in Htrue.
  split; [|split].
  - rewrite <- Htrue.
    destruct (IsUnhealthy_range _ _ _).1; split; congruence.
  - intros before status after Hl Hbefore Hq. rewrite Hl.
    destruct (first_qualifying (Namespace pod) (Name pod) before after status
                Hbefore Hq) as [-> ->]. done.
  - intros Hnone.
    destruct (IsUnhealthy_range _ _ _).1 eqn:Hu; [|done].
    destruct Htrue as [(status & Hin & Hq) _]; [done|].
    by destruct (Hnone status Hin).
Qed.

End Classifier.

(** The scenario of the specification: one container in
    CrashLoopBackOff that has restarted four times. *)
Example classify_api_1 :
  classify
    {| Namespace := "ns"; Name := "api-1";
       OwnerReferences := [{| Kind := "ReplicaSet"; OwnerName := "api" |}];
       Status := {| ContainerStatuses :=
         [{| State := {| Waiting := Some {| Reason := "CrashLoopBackOff";
                                             Message := "back-off" |} |};
             RestartCount := 4 |}] |} |}
  = Unhealthy "Persistent CrashLoopBackOff (Restarts: 4)".
Proof. reflexivity. Qed.

(** ** Durations *)

Section Durations.

Import time.

Lemma wrap64_int64 (z : Z) : int64 z → wrap64 z = z.
Proof.
  unfold int64, wrap64, minDuration, maxDuration. intros Hz.
  rewrite Z.mod_small; lia.
Qed.

(** Between two clock readings [Sub] is the plain difference. *)
Lemma Sub_readings (t u : Z) : reading t → reading u → Sub t u = t - u.
Proof.
  unfold reading, Sub, maxDuration. intros Ht Hu.
  rewrite wrap64_int64 by (unfold int64, minDuration, maxDuration; lia).
  destruct (t - u <? 0) eqn:Hneg, (u <? t) eqn:Hlt, (0 <? t - u) eqn:Hpos,
    (t <? u) eqn:Hgt; simpl; try reflexivity; lia.
Qed.

(** [2*h.HealCooldown] is the double as long as that fits 64 bits. *)
Lemma double_cooldown (cooldown : Z) :
  - 2 ^ 62 ≤ cooldown < 2 ^ 62 → wrap64 (2 * cooldown) = 2 * cooldown.
Proof.
  intros Hc. apply wrap64_int64. unfold int64, minDuration, maxDuration. lia.
Qed.

End Durations.

(** ** One call of the update handler *)

Section Handler.

Import healer.

Lemma deletions_app (l1 l2 : list Action) :
  deletions (l1 ++ l2) = deletions l1 ++ deletions l2.
Proof. apply List.filter_app. Qed.

Lemma deletions_cons (a : Action) (l : list Action) :
  deletions (a :: l) = if is_delete a then a :: deletions l else deletions l.
Proof. done. Qed.

(** [IsUnhealthy] prints at most its one [Check] line. *)
Lemma IsUnhealthy_range_printed (ns name : string) (statuses : list ContainerStatus) :
  ∀ a, a ∈ (util.IsUnhealthy_range ns name statuses).2 →
       ∃ n, a = LogCheck ns name n.
Proof.
  induction statuses as [|status rest IH]; intros a.
  - simpl. by intros ?%elem_of_nil.
  - simpl. destruct (util.waitingCrashLoop status); [|by apply IH].
    destruct (util.DefaultRestartThreshold <=? RestartCount status); [|by apply IH].
    simpl. intros ->%list_elem_of_singleton. by eexists.
Qed.

Lemma printed_no_action (f : Action → bool) (pod : Pod) :
  (∀ ns name n, f (LogCheck ns name n) = false) →
  List.filter f (util.IsUnhealthy pod).2 = [].
Proof.
  intros Hf. unfold util.IsUnhealthy.
  pose proof (IsUnhealthy_range_printed (Namespace pod) (Name pod)
                (ContainerStatuses (Status pod))) as Hp.
  induction (util.IsUnhealthy_range _ _ _).2 as [|a l IH]; [done|].
  simpl. destruct (Hp a) as [n ->]; [by left|].
  rewrite Hf. apply IH. intros b Hb. apply Hp. by right.
Qed.

Lemma deletions_printed (pod : Pod) : deletions (util.IsUnhealthy pod).2 = [].
Proof. by apply printed_no_action. Qed.

Lemma owned_length (pod : Pod) :
  (length (OwnerReferences pod) =? 0)%nat = false ↔ OwnerReferences pod ≠ [].
Proof.
  rewrite Nat.eqb_neq. destruct (OwnerReferences pod); simpl; split; try done; lia.
Qed.

(** The three ways an owned Pod leaves the handler. *)
Lemma checkAndHealPod_skip (h : Healer) (pod : Pod) (w : World) :
  OwnerReferences pod ≠ [] → shouldSkip h (podKey pod) (sinceNow w) = true →
  checkAndHealPod h pod w = (h, [ActLookup (podKey pod); LogSkip (podKey pod)]).
Proof.
  intros Ho%owned_length Hs. unfold checkAndHealPod. by rewrite Ho, Hs.
Qed.

Lemma checkAndHealPod_healthy (h : Healer) (pod : Pod) (w : World) :
  OwnerReferences pod ≠ [] → shouldSkip h (podKey pod) (sinceNow w) = false →
  (util.IsUnhealthy pod).1 = false →
  checkAndHealPod h pod w
  = (h, ActLookup (podKey pod) :: ActClassify (Namespace pod) (Name pod)
          :: (util.IsUnhealthy pod).2).
Proof.
  intros Ho%owned_length Hs Hu. unfold checkAndHealPod, healIfUnhealthy.
  rewrite Ho, Hs. destruct (util.IsUnhealthy pod) as [u printed].
  simpl in Hu. by subst u.
Qed.

Lemma checkAndHealPod_heal (h : Healer) (pod : Pod) (w : World) :
  OwnerReferences pod ≠ [] → shouldSkip h (podKey pod) (sinceNow w) = false →
  (util.IsUnhealthy pod).1 = true →
  checkAndHealPod h pod w
  = (set_HealedPods h (<[podKey pod := recordNow w]> (HealedPods h)),
     ActLookup (podKey pod) :: ActClassify (Namespace pod) (Name pod)
       :: (util.IsUnhealthy pod).2
       ++ [LogHealRequired (podKey pod) (util.GetHealReason pod)]
       ++ triggerPodDeletion pod (deleteErr w)
       ++ [ActRecord (podKey pod) (recordNow w); LogHealComplete]).
Proof.
  intros Ho%owned_length Hs Hu. unfold checkAndHealPod, healIfUnhealthy.
  rewrite Ho, Hs. destruct (util.IsUnhealthy pod) as [u printed].
  simpl in Hu. by subst u.
Qed.

Lemma checkAndHealPod_unmanaged (h : Healer) (pod : Pod) (w : World) :
  OwnerReferences pod = [] → checkAndHealPod h pod w = (h, []).
Proof. intros Ho. unfold checkAndHealPod. by rewrite Ho. Qed.

Lemma deletions_trigger (pod : Pod) (err : option APIError) :
  deletions (triggerPodDeletion pod err) = [ActDelete (Namespace pod) (Name pod)].
Proof. by destruct err. Qed.

(** A call issues a delete for its Pod exactly when the Pod is owned,
    not in its cooldown and unhealthy; then it also writes the entry. *)
Lemma checkAndHealPod_deletions (h : Healer) (pod : Pod) (w : World) :
  (OwnerReferences pod ≠ [] ∧ shouldSkip h (podKey pod) (sinceNow w) = false
   ∧ (util.IsUnhealthy pod).1 = true
   ∧ deletions (checkAndHealPod h pod w).2 = [ActDelete (Namespace pod) (Name pod)]
   ∧ HealedPods (checkAndHealPod h pod w).1
     = <[podKey pod := recordNow w]> (HealedPods h))
  ∨ ((OwnerReferences pod = [] ∨ shouldSkip h (podKey pod) (sinceNow w) = true
      ∨ (util.IsUnhealthy pod).1 = false)
     ∧ deletions (checkAndHealPod h pod w).2 = []
     ∧ (checkAndHealPod h pod w).1 = h).
Proof.
  destruct (decide (OwnerReferences pod = [])) as [Ho|Ho].
  { right. rewrite checkAndHealPod_unmanaged by done. auto. }
  destruct (shouldSkip h (podKey pod) (sinceNow w)) eqn:Hs.
  { right. rewrite checkAndHealPod_skip by done. auto. }
  destruct (util.IsUnhealthy pod).1 eqn:Hu.
  - left. rewrite checkAndHealPod_heal by done. cbn [fst snd].
    rewrite !deletions_cons, !deletions_app, deletions_printed, deletions_trigger.
    auto.
  - right. rewrite checkAndHealPod_healthy by done. cbn [fst snd].
    rewrite !deletions_cons, deletions_printed. auto.
Qed.

(** C4.  A Pod without owner reference leaves the handler at once: no
    action at all, hence no delete call, whatever its container
    statuses say; in both revisions of the handler. *)
Theorem C4_unmanaged_never_deleted (h : Healer) (pod : Pod) (w : World)
  (err : option APIError) :
  OwnerReferences pod = [] →
  checkAndHealPod h pod w = (h, [])
  ∧ deletions (checkAndHealPod h pod w).2 = []
  ∧ healer_pkg.checkAndHealPod pod err = []
  ∧ deletions (healer_pkg.checkAndHealPod pod err) = [].
Proof.
  intros Ho. rewrite checkAndHealPod_unmanaged by done.
  unfold healer_pkg.checkAndHealPod. rewrite Ho. done.
Qed.

End Handler.

(** ** The sweep *)

Section Sweep.

Import healer.

Lemma sweep_range_Some (now cooldown : Z) (entries : list (string * Z))
  (m : gmap string Z) (k : string) (v : Z) :
  sweep_range now cooldown entries m !! k = Some v →
  m !! k = Some v ∧ ∀ t, (k, t) ∈ entries → expired now cooldown t = false.
Proof.
  revert m. induction entries as [|[key t] rest IH]; intros m; simpl.
  - intros Hm. split; [done|]. by intros t ?%elem_of_nil.
  - intros [Hm Hrest]%IH. destruct (expired now cooldown t) eqn:He.
    + apply lookup_delete_Some in Hm as [Hne Hm]. split; [done|].
      intros t' [[= ? ?]|Hin]%elem_of_cons; [congruence|by apply Hrest].
    + split; [done|].
      intros t' [[= ? ?]|Hin]%elem_of_cons; [congruence|by apply Hrest].
Qed.

Lemma sweep_range_keeps (now cooldown : Z) (entries : list (string * Z))
  (m : gmap string Z) (k : string) (v : Z) :
  m !! k = Some v → (∀ t, (k, t) ∈ entries → expired now cooldown t = false) →
  sweep_range now cooldown entries m !! k = Some v.
Proof.
  revert m. induction entries as [|[key t] rest IH]; intros m Hm Hk; simpl; [done|].
  apply IH; [|intros t' Hin; apply Hk; by right].
  destruct (expired now cooldown t) eqn:He; [|done].
  rewrite lookup_delete_ne; [done|].
  intros ->. rewrite (Hk t) in He; [done|by left].
Qed.

(** What a sweep leaves of an entry, whatever the order of the [range]. *)
Lemma sweep_range_lookup (now cooldown : Z) (entries : list (string * Z))
  (m : gmap string Z) (k : string) :
  (∀ key t, (key, t) ∈ entries ↔ m !! key = Some t) →
  sweep_range now cooldown entries m !! k
  = match m !! k with
    | Some t => if expired now cooldown t then None else Some t
    | None => None
    end.
Proof.
  intros Hentries. destruct (m !! k) as [t|] eqn:Hm.
  - destruct (expired now cooldown t) eqn:He.
    + destruct (sweep_range now cooldown entries m !! k) as [v|] eqn:Hs; [|done].
      apply sweep_range_Some in Hs as [_ Hs].
      rewrite (Hs t) in He; [done|by apply Hentries].
    + apply sweep_range_keeps; [done|].
      intros t' Hin%Hentries. congruence.
  - destruct (sweep_range now cooldown entries m !! k) as [v|] eqn:Hs; [|done].
    apply sweep_range_Some in Hs as [Hs _]. congruence.
Qed.

Lemma sweep_lookup (h : Healer) (now : Z) (k : string) :
  HealedPods (sweep h now) !! k
  = match HealedPods h !! k with
    | Some t => if expired now (HealCooldown h) t then None else Some t
    | None => None
    end.
Proof.
  unfold sweep. simpl. apply sweep_range_lookup.
  intros key t. apply elem_of_map_to_list.
Qed.

Lemma sweep_HealCooldown (h : Healer) (now : Z) :
  HealCooldown (sweep h now) = HealCooldown h.
Proof. done. Qed.

Lemma sweep_lookup_Some (h : Healer) (now : Z) (k : string) (t : Z) :
  HealedPods (sweep h now) !! k = Some t → HealedPods h !! k = Some t.
Proof.
  rewrite sweep_lookup. destruct (HealedPods h !! k) as [t'|]; [|done].
  by destruct (expired now (HealCooldown h) t').
Qed.

(** With a cooldown whose double fits 64 bits, an entry is expired when
    its age exceeds twice the cooldown. *)
Lemma expired_age (now cooldown t : Z) :
  - 2 ^ 62 ≤ cooldown < 2 ^ 62 → time.reading now → time.reading t →
  expired now cooldown t = true ↔ now - t > 2 * cooldown.
Proof.
  intros Hc Hnow Ht. unfold expired.
  rewrite double_cooldown, Sub_readings, Z.ltb_lt by done. lia.
Qed.

Lemma cleaner_HealCooldown (received : list Select) (h : Healer) :
  HealCooldown (cleaner h received) = HealCooldown h.
Proof.
  revert h. induction received as [|[now|] rest IH]; intros h; simpl; [done| |done].
  by rewrite IH.
Qed.

(** An entry that no tick finds older than twice the cooldown is still
    there after all of them. *)
Lemma cleaner_keeps (ticks : list Z) (h : Healer) (key : string) (t : Z) :
  - 2 ^ 62 ≤ HealCooldown h < 2 ^ 62 → time.reading t →
  HealedPods h !! key = Some t →
  (∀ tick, tick ∈ ticks → time.reading tick ∧ tick - t ≤ 2 * HealCooldown h) →
  HealedPods (cleaner h (TickerC <$> ticks)) !! key = Some t.
Proof.
  intros Hc Ht. revert h Hc.
  induction ticks as [|tick ticks IH]; intros h Hc Hkey Hticks; [done|].
  simpl. apply IH.
  - by rewrite sweep_HealCooldown.
  - destruct (Hticks tick) as [Htick Hage]; [by left|].
    rewrite sweep_lookup, Hkey.
    destruct (expired tick (HealCooldown h) t) eqn:He; [|done].
    apply expired_age in He; [lia|done..].
  - intros tick' Hin. rewrite sweep_HealCooldown. apply Hticks. by right.
Qed.

(** C7, amended.  Provided twice the cooldown fits the signed 64-bit
    count of nanoseconds of a Go duration (cooldown below 2^62 ns), a
    sweep at [now] removes an entry exactly when its age, [now] minus
    the time it was healed at, exceeds twice the cooldown; an entry not
    older than that stays, with its time, through any number of
    sweeps. *)
Theorem C7_sweep_removes_old (h : Healer) (now : Z) (key : string) (t : Z) :
  - 2 ^ 62 ≤ HealCooldown h < 2 ^ 62 →
  time.reading now → time.reading t →
  HealedPods h !! key = Some t →
  (HealedPods (sweep h now) !! key = None ↔ now - t > 2 * HealCooldown h)
  ∧ (now - t ≤ 2 * HealCooldown h → HealedPods (sweep h now) !! key = Some t)
  ∧ (∀ ticks : list Z,
       (∀ tick, tick ∈ ticks → time.reading tick ∧ tick - t ≤ 2 * HealCooldown h) →
       HealedPods (cleaner h (TickerC <$> ticks)) !! key = Some t).
Proof.
  intros Hc Hnow Ht Hkey. split; [|split].
  - rewrite sweep_lookup, Hkey, <- expired_age by done.
    by destruct (expired now (HealCooldown h) t).
  - intros Hage. rewrite sweep_lookup, Hkey.
    destruct (expired now (HealCooldown h) t) eqn:He; [|done].
    apply expired_age in He; [lia|done..].
  - intros ticks Hticks. by apply cleaner_keeps.
Qed.

End Sweep.

(** Closed comparisons of integers, by computation. *)
Ltac by_computation :=
  vm_compute; repeat split; first [reflexivity | discriminate].

Section SweepExamples.

Import healer.

(** An entry healed at second 5, cooldown ten minutes: the sweep of
    second 1205 (age twenty minutes exactly) keeps it, the sweep one
    nanosecond later removes it. *)
Example sweep_boundary :
  HealedPods (sweep scenario.healed (1205 * time.Second)) !! "ns/api-1"
    = Some (5 * time.Second)
  ∧ HealedPods (sweep scenario.healed (1205 * time.Second + 1)) !! "ns/api-1" = None.
Proof. split; vm_compute; reflexivity. Qed.

Lemma C7_witness :
  (- 2 ^ 62 ≤ HealCooldown scenario.healed < 2 ^ 62)
  ∧ time.reading (1205 * time.Second + 1)
  ∧ time.reading (5 * time.Second)
  ∧ HealedPods scenario.healed !! "ns/api-1" = Some (5 * time.Second)
  ∧ (HealedPods (sweep scenario.healed (1205 * time.Second + 1)) !! "ns/api-1" = None
     ↔ 1205 * time.Second + 1 - 5 * time.Second > 2 * HealCooldown scenario.healed).
Proof.
  assert (H1 : - 2 ^ 62 ≤ HealCooldown scenario.healed < 2 ^ 62)
    by by_computation.
  assert (H2 : time.reading (1205 * time.Second + 1))
    by by_computation.
  assert (H3 : time.reading (5 * time.Second))
    by by_computation.
  assert (H4 : HealedPods scenario.healed !! "ns/api-1" = Some (5 * time.Second))
    by reflexivity.
  repeat (split; [assumption|]).
  exact (proj1 (C7_sweep_removes_old scenario.healed (1205 * time.Second + 1)
                  "ns/api-1" (5 * time.Second) H1 H2 H3 H4)).
Defined.

(** C7 as stated fails where twice the cooldown leaves the 64-bit range:
    with a cooldown of 2^62 ns the product wraps to -2^63, every age
    exceeds it, and the sweep removes an entry of age zero. *)
Lemma C7_counterexample :
  ¬ (∀ (h : Healer) (now : Z) (key : string) (t : Z),
       time.int64 (HealCooldown h) → time.reading now → time.reading t →
       HealedPods h !! key = Some t →
       (HealedPods (sweep h now) !! key = None ↔ now - t > 2 * HealCooldown h)).
Proof.
  intros Hclaim.
  destruct (Hclaim scenario.patient (5 * time.Second) "ns/api-1" (5 * time.Second))
    as [Hremoved _].
  - by_computation.
  - by_computation.
  - by_computation.
  - reflexivity.
  - assert (Hgone : HealedPods (sweep scenario.patient (5 * time.Second))
                      !! "ns/api-1" = None) by (vm_compute; reflexivity).
    apply Hremoved in Hgone. vm_compute in Hgone. discriminate.
Qed.

End SweepExamples.

(** ** The cooldown check, the record, and their order *)

Section Cooldown.

Import healer.

Lemma shouldSkip_age (h : Healer) (key : string) (now : Z) :
  time.reading now → (∀ k t, HealedPods h !! k = Some t → time.reading t) →
  shouldSkip h key now = true ↔
  ∃ lastHealedAt, HealedPods h !! key = Some lastHealedAt
                  ∧ now - lastHealedAt < HealCooldown h.
Proof.
  intros Hnow Hentries. unfold shouldSkip.
  destruct (HealedPods h !! key) as [lastHeal|] eqn:Hkey.
  - rewrite Sub_readings, Z.ltb_lt by eauto. split.
    + intros Hage. by exists lastHeal.
    + by intros (t & [= <-] & Hage).
  - split; [done|]. by intros (t & [=] & _).
Qed.

(** C6.  The handler skips a Pod exactly when the store has an entry
    under the Pod's key and the clock, minus the time of that entry, is
    strictly below the cooldown; and when it skips, it leaves the store
    as it is and issues no delete. *)
Theorem C6_cooldown_skip (h : Healer) (key : string) (now : Z) :
  time.reading now → (∀ k t, HealedPods h !! k = Some t → time.reading t) →
  (shouldSkip h key now = true ↔
   ∃ lastHealedAt, HealedPods h !! key = Some lastHealedAt
                   ∧ now - lastHealedAt < HealCooldown h)
  ∧ (∀ pod w, podKey pod = key → sinceNow w = now →
       shouldSkip h key now = true →
       (checkAndHealPod h pod w).1 = h
       ∧ deletions (checkAndHealPod h pod w).2 = []).
Proof.
  intros Hnow Hentries. split; [by apply shouldSkip_age|].
  intros pod w <- <- Hskip.
  destruct (checkAndHealPod_deletions h pod w) as [(_ & Hs & _)|(_ & Hd & Hh)].
  - congruence.
  - done.
Qed.

Lemma C6_witness :
  time.reading (35 * time.Second)
  ∧ (∀ k t, HealedPods scenario.healed !! k = Some t → time.reading t)
  ∧ (shouldSkip scenario.healed "ns/api-1" (35 * time.Second) = true ↔
     ∃ lastHealedAt,
       HealedPods scenario.healed !! "ns/api-1" = Some lastHealedAt
       ∧ 35 * time.Second - lastHealedAt < HealCooldown scenario.healed).
Proof.
  assert (H1 : time.reading (35 * time.Second)) by by_computation.
  assert (H2 : ∀ k t, HealedPods scenario.healed !! k = Some t → time.reading t).
  { intros k t Hk. unfold scenario.healed, HealedPods in Hk.
    apply lookup_singleton_Some in Hk as [_ <-]. by_computation. }
  split; [exact H1|]. split; [exact H2|].
  exact (proj1 (C6_cooldown_skip scenario.healed "ns/api-1" (35 * time.Second) H1 H2)).
Defined.

Lemma elem_of_deletions (a : Action) (acts : list Action) :
  a ∈ deletions acts → a ∈ acts.
Proof.
  unfold deletions. rewrite !list_elem_of_In, List.filter_In. tauto.
Qed.

Lemma checkAndHealPod_deleteErr (h : Healer) (pod : Pod) (w : World)
  (err : option APIError) :
  (checkAndHealPod h pod (set_deleteErr w err)).1 = (checkAndHealPod h pod w).1
  ∧ deletions (checkAndHealPod h pod (set_deleteErr w err)).2
    = deletions (checkAndHealPod h pod w).2.
Proof.
  destruct (checkAndHealPod_deletions h pod w)
    as [(Ho & Hs & Hu & Hd & Hm)|([Ho|[Hs|Hu]] & Hd & Hh)].
  - rewrite !checkAndHealPod_heal by done. cbn [fst snd set_deleteErr recordNow].
    rewrite !deletions_cons, !deletions_app, !deletions_trigger. done.
  - by rewrite !checkAndHealPod_unmanaged.
  - destruct (decide (OwnerReferences pod = [])) as [Ho|Ho].
    + by rewrite !checkAndHealPod_unmanaged.
    + by rewrite !checkAndHealPod_skip.
  - destruct (decide (OwnerReferences pod = [])) as [Ho|Ho].
    { by rewrite !checkAndHealPod_unmanaged. }
    destruct (shouldSkip h (podKey pod) (sinceNow w)) eqn:Hs.
    + by rewrite !checkAndHealPod_skip.
    + by rewrite !checkAndHealPod_healthy.
Qed.

(** Along a run, a key enters the store only with a delete call for
    the Pod it names. *)
Lemma serve_entries (inputs : list serial.Input) (h : Healer) (key : string) :
  is_Some (HealedPods (serial.serve h inputs).1 !! key) →
  is_Some (HealedPods h !! key)
  ∨ ∃ ns name, key = ns +:+ "/" +:+ name
               ∧ ActDelete ns name ∈ (serial.serve h inputs).2.
Proof.
  revert h. induction inputs as [|[pod w|now] rest IH]; intros h; simpl.
  - by left.
  - destruct (checkAndHealPod h pod w) as [h1 acts1] eqn:Hcall.
    destruct (serial.serve h1 rest) as [h2 acts2] eqn:Hrest. simpl.
    intros Hkey. specialize (IH h1). rewrite Hrest in IH. simpl in IH.
    destruct (IH Hkey) as [Hin1|(ns & name & -> & Hdel)].
    + pose proof (checkAndHealPod_deletions h pod w) as Hcases.
      rewrite Hcall in Hcases. simpl in Hcases.
      destruct Hcases as [(_ & _ & _ & Hd & Hm)|(_ & _ & ->)]; [|by left].
      rewrite Hm in Hin1. destruct (decide (podKey pod = key)) as [<-|Hne].
      * right. exists (Namespace pod), (Name pod). split; [done|].
        apply elem_of_app. left. apply elem_of_deletions. rewrite Hd. by left.
      * left. by rewrite lookup_insert_ne in Hin1.
    + right. exists ns, name. split; [done|]. apply elem_of_app. by right.
  - intros Hkey. destruct (IH (sweep h now) Hkey) as [[t Hin]|Hdel]; [|by right].
    left. exists t. by apply sweep_lookup_Some in Hin.
Qed.

(** C2.  A call of the handler writes the entry of its Pod exactly when
    it issues the delete call for it: either one delete and the entry
    set to the clock read after it, or no delete and the store
    untouched, however the Pod was classified.  The entry is written
    whatever the delete call answered, an error included.  Hence along
    any run every key of the store that was not there at the start
    names a Pod a delete was issued for. *)
Theorem C2_entry_iff_delete_issued (h : Healer) (pod : Pod) (w : World)
  (inputs : list serial.Input) :
  ((deletions (checkAndHealPod h pod w).2 = [ActDelete (Namespace pod) (Name pod)]
    ∧ HealedPods (checkAndHealPod h pod w).1
      = <[podKey pod := recordNow w]> (HealedPods h))
   ∨ (deletions (checkAndHealPod h pod w).2 = []
      ∧ (checkAndHealPod h pod w).1 = h))
  ∧ (∀ msg,
       deletions (checkAndHealPod h pod (set_deleteErr w (Some (OtherError msg)))).2
         = [ActDelete (Namespace pod) (Name pod)] →
       HealedPods (checkAndHealPod h pod (set_deleteErr w (Some (OtherError msg)))).1
         !! podKey pod = Some (recordNow w))
  ∧ (∀ err,
       (checkAndHealPod h pod (set_deleteErr w err)).1 = (checkAndHealPod h pod w).1)
  ∧ (∀ key,
       is_Some (HealedPods (serial.serve h inputs).1 !! key) →
       is_Some (HealedPods h !! key)
       ∨ ∃ ns name, key = ns +:+ "/" +:+ name
                    ∧ ActDelete ns name ∈ (serial.serve h inputs).2).
Proof.
  split; [|split; [|split]].
  - destruct (checkAndHealPod_deletions h pod w)
      as [(_ & _ & _ & Hd & Hm)|(_ & Hd & Hh)]; [by left|by right].
  - intros msg Hdel.
    destruct (checkAndHealPod_deletions h pod (set_deleteErr w (Some (OtherError msg))))
      as [(_ & _ & _ & _ & Hm)|(_ & Hd & _)]; [|congruence].
    rewrite Hm. apply lookup_insert_eq.
  - intros err. apply checkAndHealPod_deleteErr.
  - apply serve_entries.
Qed.

End Cooldown.

Section Order.

Import healer.

Lemma lookups_printed (pod : Pod) : List.filter is_lookup (util.IsUnhealthy pod).2 = [].
Proof. by apply printed_no_action. Qed.

Lemma classifies_printed (pod : Pod) :
  List.filter is_classify (util.IsUnhealthy pod).2 = [].
Proof. by apply printed_no_action. Qed.

Lemma classify_Healthy (pod : Pod) :
  classify pod = Healthy ↔ (util.IsUnhealthy pod).1 = false.
Proof. unfold classify. destruct (util.IsUnhealthy pod).1; split; congruence. Qed.

(** C5, amended.  For an owned Pod the handler first reads the cooldown
    store, once, and returns when the Pod is in its cooldown, without
    classifying it; only otherwise does it classify, once, and when the
    Pod is healthy it returns with the store as it was and no delete
    call. *)
Theorem C5_cooldown_query_then_classification (h : Healer) (pod : Pod) (w : World) :
  OwnerReferences pod ≠ [] →
  (∃ rest, (checkAndHealPod h pod w).2 = ActLookup (podKey pod) :: rest
           ∧ List.filter is_lookup rest = [])
  ∧ (shouldSkip h (podKey pod) (sinceNow w) = true →
     (checkAndHealPod h pod w).2 = [ActLookup (podKey pod); LogSkip (podKey pod)])
  ∧ (shouldSkip h (podKey pod) (sinceNow w) = false →
     ∃ rest, (checkAndHealPod h pod w).2
             = ActLookup (podKey pod) :: ActClassify (Namespace pod) (Name pod) :: rest
             ∧ List.filter is_classify rest = [])
  ∧ (shouldSkip h (podKey pod) (sinceNow w) = false → classify pod = Healthy →
     (checkAndHealPod h pod w).1 = h ∧ deletions (checkAndHealPod h pod w).2 = []).
Proof.
  intros Ho. destruct (shouldSkip h (podKey pod) (sinceNow w)) eqn:Hs.
  { rewrite checkAndHealPod_skip by done. simpl.
    split; [by eexists|]. repeat split; done. }
  destruct (util.IsUnhealthy pod).1 eqn:Hu.
  - rewrite checkAndHealPod_heal by done. cbn [fst snd].
    split; [|split; [done|split]].
    + eexists. split; [done|]. simpl.
      rewrite !List.filter_app, lookups_printed. by destruct (deleteErr w).
    + intros _. eexists. split; [done|].
      rewrite !List.filter_app, classifies_printed. by destruct (deleteErr w).
    + intros _ Hh%classify_Healthy. congruence.
  - rewrite checkAndHealPod_healthy by done. cbn [fst snd].
    split; [|split; [done|split]].
    + eexists. split; [done|]. simpl. apply lookups_printed.
    + intros _. eexists. split; [done|]. apply classifies_printed.
    + intros _ _. split; [done|].
      by rewrite !deletions_cons, deletions_printed.
Qed.

Lemma C5_witness :
  OwnerReferences (scenario.api_1 4) ≠ []
  ∧ ∃ rest, (checkAndHealPod scenario.fresh (scenario.api_1 4)
               (scenario.at_second 5 None)).2
            = ActLookup "ns/api-1" :: ActClassify "ns" "api-1" :: rest
            ∧ List.filter is_classify rest = [].
Proof.
  assert (Ho : OwnerReferences (scenario.api_1 4) ≠ []) by discriminate.
  split; [exact Ho|].
  exact (proj1 (proj2 (proj2
           (C5_cooldown_query_then_classification scenario.fresh (scenario.api_1 4)
              (scenario.at_second 5 None) Ho))) eq_refl).
Defined.

(** C5 as stated fails: the read of the store comes before the
    classification, and happens for healthy Pods too.  ns/api-1,
    healed at second 5 and running again at second 35, is looked up
    and skipped with no classification at all. *)
Lemma C5_counterexample :
  ¬ (∀ (h : Healer) (pod : Pod) (w : World),
       OwnerReferences pod ≠ [] →
       ∀ before key after,
         (checkAndHealPod h pod w).2 = before ++ ActLookup key :: after →
         ActClassify (Namespace pod) (Name pod) ∈ before ∧ classify pod ≠ Healthy).
Proof.
  intros Hclaim.
  destruct (Hclaim scenario.healed scenario.api_1_running (scenario.at_second 35 None))
    with (before := @nil Action) (key := "ns/api-1") (after := [LogSkip "ns/api-1"])
    as [Hin _].
  - discriminate.
  - reflexivity.
  - by apply elem_of_nil in Hin.
Qed.

(** The trace of that call. *)
Example healthy_pod_in_cooldown :
  classify scenario.api_1_running = Healthy
  ∧ checkAndHealPod scenario.healed scenario.api_1_running (scenario.at_second 35 None)
    = (scenario.healed, [ActLookup "ns/api-1"; LogSkip "ns/api-1"]).
Proof. split; reflexivity. Qed.

(** C8, amended.  When the delete call answers "not found",
    [triggerPodDeletion] prints the failure line, as for every other
    error; the code has no case for "not found".  The handler then goes
    on as after a successful delete: the same one delete call, no
    retry, and the same store, with the entry recorded.  So in both
    revisions of [triggerPodDeletion]. *)
Theorem C8_not_found_logged_as_failure (h : Healer) (pod : Pod) (w : World) :
  triggerPodDeletion pod (Some NotFound)
    = [ActDelete (Namespace pod) (Name pod);
       LogDeleteFail (Namespace pod) (Name pod) (Error NotFound)]
  ∧ healer_pkg.triggerPodDeletion pod (Some NotFound)
    = [ActDelete (Namespace pod) (Name pod);
       LogDeleteFail (Namespace pod) (Name pod) (Error NotFound)]
  ∧ (checkAndHealPod h pod (set_deleteErr w (Some NotFound))).1
    = (checkAndHealPod h pod (set_deleteErr w None)).1
  ∧ deletions (checkAndHealPod h pod (set_deleteErr w (Some NotFound))).2
    = deletions (checkAndHealPod h pod (set_deleteErr w None)).2.
Proof.
  split; [done|]. split; [done|].
  destruct (checkAndHealPod_deleteErr h pod w (Some NotFound)) as [-> ->].
  destruct (checkAndHealPod_deleteErr h pod w None) as [-> ->]. done.
Qed.

(** C8 as stated fails: a delete call that answers "not found" is
    reported with the line of a failed delete. *)
Lemma C8_counterexample :
  ¬ (∀ (pod : Pod),
       List.filter is_delete_failure (triggerPodDeletion pod (Some NotFound)) = []).
Proof. intros Hclaim. specialize (Hclaim (scenario.api_1 4)). discriminate. Qed.

Example not_found_trace :
  (checkAndHealPod scenario.fresh (scenario.api_1 4) (scenario.at_second 5 (Some NotFound))).2
  = [ActLookup "ns/api-1"; ActClassify "ns" "api-1"; LogCheck "ns" "api-1" 4;
     LogHealRequired "ns/api-1" "Persistent CrashLoopBackOff (Restarts: 4)";
     ActDelete "ns" "api-1"; LogDeleteFail "ns" "api-1" "pods not found";
     ActRecord "ns/api-1" (5 * time.Second); LogHealComplete].
Proof. reflexivity. Qed.

End Order.

(** ** Handlers of several goroutines on the one store *)

Section Goroutines.

Import healer goroutines.

(** A schedule is a sequence of steps of the scheduler. *)
Lemma run_steps (schedule : list nat) (s : State) : rtc step s (run schedule s).
Proof.
  revert s. induction schedule as [|i rest IH]; intros s; simpl; [done|].
  destruct (calls s !! i) as [c|] eqn:Hc; [|apply IH].
  destruct (advance (shared s) c) as [[[h' c'] acts]|] eqn:Ha; [|apply IH].
  eapply rtc_l; [|apply IH]. by eapply step_call.
Qed.

(** Left alone, a call is [checkAndHealPod]. *)
Lemma run_first (h : Healer) (p : Pod) (w : World) (others : list Call)
  (before : list Action) :
  run [0; 0; 0]%nat {| shared := h; calls := call p w :: others; emitted := before |}
  = {| shared := (checkAndHealPod h p w).1;
       calls := at_pc (call p w) Returned :: others;
       emitted := before ++ (checkAndHealPod h p w).2 |}.
Proof.
  unfold checkAndHealPod, healIfUnhealthy. simpl. unfold advance. simpl.
  destruct (length (OwnerReferences p) =? 0)%nat; simpl.
  { by rewrite app_nil_r. }
  destruct (shouldSkip h (podKey p) (sinceNow w)); simpl; [done|].
  destruct (util.IsUnhealthy p) as [[] printed]; simpl; f_equal;
    repeat (rewrite <- ?app_assoc; simpl); done.
Qed.

Lemma run_second (h : Healer) (p : Pod) (w : World) (c : Call)
  (before : list Action) :
  run [1; 1; 1]%nat {| shared := h; calls := [c; call p w]; emitted := before |}
  = {| shared := (checkAndHealPod h p w).1;
       calls := [c; at_pc (call p w) Returned];
       emitted := before ++ (checkAndHealPod h p w).2 |}.
Proof.
  unfold checkAndHealPod, healIfUnhealthy. simpl. unfold advance. simpl.
  destruct (length (OwnerReferences p) =? 0)%nat; simpl.
  { by rewrite app_nil_r. }
  destruct (shouldSkip h (podKey p) (sinceNow w)); simpl; [done|].
  destruct (util.IsUnhealthy p) as [[] printed]; simpl; f_equal;
    repeat (rewrite <- ?app_assoc; simpl); done.
Qed.

Lemma run_app (s1 s2 : list nat) (s : State) : run (s1 ++ s2) s = run s2 (run s1 s).
Proof.
  revert s. induction s1 as [|i rest IH]; intros s; simpl; [done|].
  destruct (calls s !! i) as [c|]; [|apply IH].
  destruct (advance (shared s) c) as [[[h' c'] acts]|]; apply IH.
Qed.

(** One call after the other is one possible schedule. *)
Lemma run_one_after_the_other (h : Healer) (p1 p2 : Pod) (w1 w2 : World) :
  run [0; 0; 0; 1; 1; 1]%nat
    {| shared := h; calls := [call p1 w1; call p2 w2]; emitted := [] |}
  = {| shared := (checkAndHealPod (checkAndHealPod h p1 w1).1 p2 w2).1;
       calls := [at_pc (call p1 w1) Returned; at_pc (call p2 w2) Returned];
       emitted := (checkAndHealPod h p1 w1).2
                  ++ (checkAndHealPod (checkAndHealPod h p1 w1).1 p2 w2).2 |}.
Proof.
  change [0; 0; 0; 1; 1; 1]%nat with ([0; 0; 0] ++ [1; 1; 1])%nat.
  by rewrite run_app, run_first, run_second.
Qed.

End Goroutines.

Section CheckAndSet.

Import healer goroutines.

Lemma checkAndHealPod_HealCooldown (h : Healer) (pod : Pod) (w : World) :
  HealCooldown (checkAndHealPod h pod w).1 = HealCooldown h.
Proof.
  unfold checkAndHealPod, healIfUnhealthy.
  destruct (length (OwnerReferences pod) =? 0)%nat; [done|].
  destruct (shouldSkip h (podKey pod) (sinceNow w)); [done|].
  by destruct (util.IsUnhealthy pod) as [[] printed].
Qed.

(** C1, amended.  The store is a plain map, and the check (line 118)
    and the record (line 135) are two steps with the delete call
    between them; nothing makes the pair atomic.  They act as a
    check-and-set when the calls on the store come one after the other:
    after a call that issued a delete and recorded the clock reading
    [t], a later call for the same key whose clock reads less than the
    cooldown after [t] finds the entry, issues no delete and leaves the
    store as it is; sweeps in between do not change that. *)
Theorem C1_check_and_set_one_after_the_other (h : Healer) (pod1 pod2 : Pod)
  (w1 w2 : World) (ticks : list Z) :
  podKey pod1 = podKey pod2 →
  0 ≤ HealCooldown h < 2 ^ 62 →
  time.reading (recordNow w1) → time.reading (sinceNow w2) →
  (∀ tick, tick ∈ ticks → time.reading tick ∧ tick ≤ sinceNow w2) →
  sinceNow w2 - recordNow w1 < HealCooldown h →
  deletions (checkAndHealPod h pod1 w1).2 ≠ [] →
  shouldSkip (cleaner (checkAndHealPod h pod1 w1).1 (TickerC <$> ticks))
    (podKey pod2) (sinceNow w2) = true
  ∧ (checkAndHealPod (cleaner (checkAndHealPod h pod1 w1).1 (TickerC <$> ticks))
       pod2 w2).1
    = cleaner (checkAndHealPod h pod1 w1).1 (TickerC <$> ticks)
  ∧ deletions
      (checkAndHealPod (cleaner (checkAndHealPod h pod1 w1).1 (TickerC <$> ticks))
         pod2 w2).2 = [].
Proof.
  intros Hkey Hc Ht1 Ht2 Hticks Hage Hdel.
  set (h1 := cleaner (checkAndHealPod h pod1 w1).1 (TickerC <$> ticks)).
  assert (Hentry : HealedPods h1 !! podKey pod2 = Some (recordNow w1)).
  { apply cleaner_keeps.
    - rewrite checkAndHealPod_HealCooldown. lia.
    - done.
    - destruct (checkAndHealPod_deletions h pod1 w1)
        as [(_ & _ & _ & _ & Hm)|(_ & Hd & _)]; [|done].
      rewrite Hm, Hkey. apply lookup_insert_eq.
    - intros tick [Htick Hle]%Hticks. split; [done|].
      rewrite checkAndHealPod_HealCooldown. lia. }
  assert (Hskip : shouldSkip h1 (podKey pod2) (sinceNow w2) = true).
  { unfold shouldSkip. rewrite Hentry, Sub_readings by done.
    unfold h1. rewrite cleaner_HealCooldown, checkAndHealPod_HealCooldown.
    by apply Z.ltb_lt. }
  split; [done|].
  destruct (checkAndHealPod_deletions h1 pod2 w2) as [(_ & Hs & _)|(_ & Hd & Hh)].
  - congruence.
  - done.
Qed.

Lemma C1_witness :
  shouldSkip
    (cleaner (checkAndHealPod scenario.fresh (scenario.api_1 4)
                (scenario.at_second 5 None)).1 (TickerC <$> [20 * time.Second]))
    (podKey (scenario.api_1 5)) (sinceNow (scenario.at_second 35 None)) = true.
Proof.
  refine (proj1 (C1_check_and_set_one_after_the_other scenario.fresh
                   (scenario.api_1 4) (scenario.api_1 5)
                   (scenario.at_second 5 None) (scenario.at_second 35 None)
                   [20 * time.Second] _ _ _ _ _ _ _)).
  - reflexivity.
  - by_computation.
  - by_computation.
  - by_computation.
  - intros tick Hin. apply list_elem_of_singleton in Hin. subst tick. by_computation.
  - by_computation.
  - vm_compute. discriminate.
Defined.

(** C1 as stated fails: two calls for ns/api-1 on a fresh store, in two
    goroutines.  When the scheduler runs the check of the first and
    then the check of the second, both have found no entry and neither
    has written one. *)
Lemma C1_counterexample :
  ¬ (∀ (h : Healer) (p : Pod) (w1 w2 : World) (s : State),
       rtc step {| shared := h; calls := [call p w1; call p w2]; emitted := [] |} s →
       pc <$> calls s ≠ [PastCheck; PastCheck]).
Proof.
  intros Hclaim.
  apply (Hclaim scenario.fresh (scenario.api_1 4)
           (scenario.at_second 5 None) (scenario.at_second 5 None)
           (run [0; 1]%nat
              {| shared := scenario.fresh;
                 calls := [call (scenario.api_1 4) (scenario.at_second 5 None);
                           call (scenario.api_1 4) (scenario.at_second 5 None)];
                 emitted := [] |})).
  - apply run_steps.
  - reflexivity.
Qed.

(** Two goroutines do handle the same Pod when two entries of the
    namespace list cover it: a list without wildcard is taken as it is,
    and [Watch] starts one watcher per entry. *)
Example two_watchers_on_one_namespace :
  main.startHealer strings.TrimSpace filepath.Match scenario.rangeKeys
    scenario.cluster scenario.kubeconfig "ns,ns" (10 * time.Minute)
  = main.Watching
      {| Namespaces := ["ns"; "ns"]; HealedPods := ∅;
         HealCooldown := 10 * time.Minute |}
      ["ns"; "ns"].
Proof. reflexivity. Qed.

(** Run on, the two calls delete ns/api-1 twice within the cooldown. *)
Example two_deletes :
  deletions
    (emitted
       (run [0; 1; 0; 1; 0; 1]%nat
          {| shared := scenario.fresh;
             calls := [call (scenario.api_1 4) (scenario.at_second 5 None);
                       call (scenario.api_1 4) (scenario.at_second 5 None)];
             emitted := [] |}))
  = [ActDelete "ns" "api-1"; ActDelete "ns" "api-1"].
Proof. reflexivity. Qed.

(** The scenario of the specification, one update after the other:
    healed at second 5, skipped thirty seconds later, healed again
    after eleven minutes. *)
Example api_1_three_updates :
  deletions
    (serial.serve scenario.fresh
       [serial.PodUpdated (scenario.api_1 4) (scenario.at_second 5 None);
        serial.PodUpdated (scenario.api_1 4) (scenario.at_second 35 None);
        serial.PodUpdated (scenario.api_1 5) (scenario.at_second 665 None)]).2
  = [ActDelete "ns" "api-1"; ActDelete "ns" "api-1"]
  ∧ deletions
      (serial.serve scenario.fresh
         [serial.PodUpdated (scenario.api_1 4) (scenario.at_second 5 None);
          serial.PodUpdated (scenario.api_1 4) (scenario.at_second 35 None)]).2
    = [ActDelete "ns" "api-1"].
Proof. split; reflexivity. Qed.

End CheckAndSet.

(** ** Namespace resolution *)

Section ResolutionProofs.

Import kube main.

Context (TrimSpace : string → string).
Context (Match : string → string → bool * option string).
Context (rangeKeys : gmap string bool → list string).

(** A [range] over a map yields every key once, in some order. *)
Hypothesis rangeKeys_perm : ∀ m, rangeKeys m ≡ₚ (map_to_list m).*1.

Lemma matches_cons (pattern : string) (rest : list string) (name : string) :
  matches Match (pattern :: rest) name ↔
  Match pattern name = (true, None) ∨ matches Match rest name.
Proof.
  unfold matches. split.
  - intros (p & [->|Hin]%elem_of_cons & Hm); [by left|right; eauto].
  - intros [Hm|(p & Hin & Hm)].
    + exists pattern. split; [by left|done].
    + exists p. split; [by right|done].
Qed.

Lemma matchPatterns_keys (name : string) (patterns : list string)
  (resolved : gmap string bool) (k : string) :
  is_Some (matchPatterns Match name patterns resolved !! k) ↔
  is_Some (resolved !! k) ∨ (k = name ∧ matches Match patterns name).
Proof.
  revert resolved. induction patterns as [|pattern rest IH]; intros resolved; simpl.
  - split; [by left|]. intros [?|[_ (p & Hin%elem_of_nil & _)]]; done.
  - rewrite matches_cons.
    destruct (Match pattern name) as [[] [err|]] eqn:Hm; rewrite IH.
    + split; [intros [?|[? ?]]|intros [?|[? [?|?]]]]; auto; congruence.
    + rewrite lookup_insert_is_Some'. split.
      * intros [[->|?]|[-> ?]]; auto.
      * intros [?|[-> [_|?]]]; auto.
    + split; [intros [?|[? ?]]|intros [?|[? [?|?]]]]; auto; congruence.
    + split; [intros [?|[? ?]]|intros [?|[? [?|?]]]]; auto; congruence.
Qed.

Lemma matchNamespaces_keys (items patterns : list string)
  (resolved : gmap string bool) (k : string) :
  is_Some (matchNamespaces Match items patterns resolved !! k) ↔
  is_Some (resolved !! k) ∨ (k ∈ items ∧ matches Match patterns k).
Proof.
  revert resolved. induction items as [|name rest IH]; intros resolved; simpl.
  - split; [by left|]. intros [?|[?%elem_of_nil _]]; done.
  - rewrite IH, matchPatterns_keys, elem_of_cons. split.
    + intros [[?|[-> ?]]|[? ?]]; auto.
    + intros [?|[[->|?] ?]]; auto.
Qed.

Lemma rangeKeys_keys (m : gmap string bool) :
  NoDup (rangeKeys m) ∧ ∀ k, k ∈ rangeKeys m ↔ is_Some (m !! k).
Proof.
  split.
  - rewrite rangeKeys_perm. apply NoDup_fst_map_to_list.
  - intros k. rewrite rangeKeys_perm, list_elem_of_fmap. split.
    + intros ([k' v] & -> & Hin%elem_of_map_to_list). by exists v.
    + intros [v Hv]. exists (k, v). split; [done|]. by apply elem_of_map_to_list.
Qed.

Lemma buildConfig_path (cluster : Cluster) (kubeconfigPath : string) :
  (if negb (strings.is_empty kubeconfigPath)
   then BuildConfigFromFlags cluster kubeconfigPath
   else BuildConfigFromFlags cluster EmptyString)
  = BuildConfigFromFlags cluster kubeconfigPath.
Proof. by destruct kubeconfigPath. Qed.

(** With a wildcard among the patterns and a cluster that answers,
    the result lists, once each, the existing namespaces that some
    pattern matches. *)
Lemma resolve_wildcards (cluster : Cluster) (kubeconfigPath namespacesInput : string)
  (items : list string) :
  strings.is_empty namespacesInput = false →
  existsb (strings.Contains_byte filepath.star)
    (map TrimSpace (strings.Split_comma namespacesInput)) = true →
  BuildConfigFromFlags cluster kubeconfigPath = None →
  NewForConfig cluster = None →
  ListNamespaces cluster = inr items →
  ∃ l, resolveWildcardNamespaces TrimSpace Match rangeKeys cluster
         kubeconfigPath namespacesInput = Ok l
       ∧ NoDup l
       ∧ ∀ name, name ∈ l ↔
           name ∈ items
           ∧ matches Match (map TrimSpace (strings.Split_comma namespacesInput)) name.
Proof.
  intros Hinput Hstar Hconfig Hclient Hlist. unfold resolveWildcardNamespaces.
  rewrite Hinput, Hstar, buildConfig_path, Hconfig, Hclient, Hlist. simpl.
  eexists. split; [done|].
  destruct (rangeKeys_keys
              (matchNamespaces Match items
                 (map TrimSpace (strings.Split_comma namespacesInput)) ∅))
    as [Hnodup Hkeys].
  split; [done|]. intros name. rewrite Hkeys, matchNamespaces_keys, lookup_empty.
  split; [intros [[? [=]]|?]; done|by right].
Qed.

End ResolutionProofs.

Section ResolutionTheorems.

Import kube main.

Lemma app_star_matches (name : string) :
  name ∈ ["app-dev"; "app-prod"; "infra"] →
  matches filepath.Match (map strings.TrimSpace (strings.Split_comma "app-*")) name ↔
  name ∈ ["app-dev"; "app-prod"].
Proof.
  intros Hname. unfold matches.
  change (map strings.TrimSpace (strings.Split_comma "app-*")) with ["app-*"].
  split.
  - intros (p & ->%list_elem_of_singleton & Hm).
    apply elem_of_cons in Hname as [->|Hname]; [by left|].
    apply elem_of_cons in Hname as [->|Hname]; [right; by left|].
    apply list_elem_of_singleton in Hname as ->.
    vm_compute in Hm. discriminate.
  - intros Hin. exists "app-*". split; [by left|].
    apply elem_of_cons in Hin as [->|Hin]; [reflexivity|].
    apply list_elem_of_singleton in Hin as ->. reflexivity.
Qed.

(** C9.  The pattern "app-*", in a cluster whose namespaces are
    app-dev, app-prod and infra, resolves to app-dev and app-prod, each
    once, in the order the runtime ranges over the map: every existing
    namespace that the pattern matches is in the result, once, and no
    other name is. *)
Theorem C9_app_star (rangeKeys : gmap string bool → list string)
  (cluster : Cluster) (kubeconfigPath : string) (items : list string) :
  (∀ m, rangeKeys m ≡ₚ (map_to_list m).*1) →
  BuildConfigFromFlags cluster kubeconfigPath = None →
  NewForConfig cluster = None →
  ListNamespaces cluster = inr items →
  (∀ name, name ∈ items ↔ name ∈ ["app-dev"; "app-prod"; "infra"]) →
  ∃ l, resolveWildcardNamespaces strings.TrimSpace filepath.Match rangeKeys
         cluster kubeconfigPath "app-*" = Ok l
       ∧ l ≡ₚ ["app-dev"; "app-prod"]
       ∧ NoDup l
       ∧ ∀ name, name ∈ l ↔
           name ∈ items ∧ matches filepath.Match ["app-*"] name.
Proof.
  intros Hrange Hconfig Hclient Hlist Hitems.
  destruct (resolve_wildcards strings.TrimSpace filepath.Match rangeKeys Hrange
              cluster kubeconfigPath "app-*" items)
    as (l & Hl & Hnodup & Hin); [reflexivity|reflexivity|done..|].
  exists l. split; [done|]. split; [|split; [done|done]].
  apply NoDup_Permutation; [done| |].
  - apply NoDup_cons. split; [|apply NoDup_singleton].
    intros Heq%list_elem_of_singleton. discriminate.
  - intros name. rewrite Hin, Hitems. split.
    + intros [Hname Hm]. by apply app_star_matches in Hm.
    + intros Hname. assert (name ∈ ["app-dev"; "app-prod"; "infra"]) as Hname'.
      { apply elem_of_cons in Hname as [->|Hname]; [by left|].
        apply list_elem_of_singleton in Hname as ->. right. by left. }
      split; [done|]. by apply app_star_matches.
Qed.

Lemma C9_witness :
  ∃ l, resolveWildcardNamespaces strings.TrimSpace filepath.Match scenario.rangeKeys
         scenario.cluster scenario.kubeconfig "app-*" = Ok l
       ∧ l ≡ₚ ["app-dev"; "app-prod"]
       ∧ NoDup l
       ∧ ∀ name, name ∈ l ↔
           name ∈ ["app-dev"; "app-prod"; "infra"]
           ∧ matches filepath.Match ["app-*"] name.
Proof.
  refine (C9_app_star scenario.rangeKeys scenario.cluster scenario.kubeconfig
            ["app-dev"; "app-prod"; "infra"] _ _ _ _ _).
  - intros m. reflexivity.
  - reflexivity.
  - reflexivity.
  - reflexivity.
  - intros name. reflexivity.
Defined.

Example app_star_resolved :
  resolveWildcardNamespaces strings.TrimSpace filepath.Match scenario.rangeKeys
    scenario.cluster scenario.kubeconfig "app-*" = Ok ["app-dev"; "app-prod"].
Proof. vm_compute. reflexivity. Qed.

(** C10.  When the patterns hold a wildcard and no existing namespace
    matches any of them, resolution returns the empty list and no
    error; [Watch] then puts the one entry [NamespaceAll] in its place,
    and the healer starts as it does for an empty input: one watcher,
    on all namespaces. *)
Theorem C10_unmatched_wildcard_watches_all
  (TrimSpace : string → string) (Match : string → string → bool * option string)
  (rangeKeys : gmap string bool → list string)
  (cluster : Cluster) (kubeconfigPath namespacesInput : string)
  (items : list string) (healCooldown : Z) :
  (∀ m, rangeKeys m ≡ₚ (map_to_list m).*1) →
  existsb (strings.Contains_byte filepath.star)
    (map TrimSpace (strings.Split_comma namespacesInput)) = true →
  BuildConfigFromFlags cluster kubeconfigPath = None →
  NewForConfig cluster = None →
  ListNamespaces cluster = inr items →
  (∀ name, name ∈ items →
     ¬ matches Match (map TrimSpace (strings.Split_comma namespacesInput)) name) →
  resolveWildcardNamespaces TrimSpace Match rangeKeys cluster
    kubeconfigPath namespacesInput = Ok []
  ∧ (∃ h, startHealer TrimSpace Match rangeKeys cluster kubeconfigPath
            namespacesInput healCooldown
          = Watching h [healer.NamespaceAll]
          ∧ healer.Namespaces h = [healer.NamespaceAll])
  ∧ startHealer TrimSpace Match rangeKeys cluster kubeconfigPath
      namespacesInput healCooldown
    = startHealer TrimSpace Match rangeKeys cluster kubeconfigPath EmptyString healCooldown.
Proof.
  intros Hrange Hstar Hconfig Hclient Hlist Hnone.
  assert (Hresolved : resolveWildcardNamespaces TrimSpace Match rangeKeys cluster
                        kubeconfigPath namespacesInput = Ok []).
  { destruct (strings.is_empty namespacesInput) eqn:Hinput.
    { unfold resolveWildcardNamespaces. by rewrite Hinput. }
    destruct (resolve_wildcards TrimSpace Match rangeKeys Hrange
                cluster kubeconfigPath namespacesInput items)
      as (l & Hl & _ & Hin); [done..|].
    rewrite Hl. destruct l as [|name l]; [done|].
    destruct (Hin name) as [[Hitem Hm] _]; [by left|].
    by destruct (Hnone name). }
  split; [done|].
  unfold startHealer, healer.NewHealer. rewrite Hresolved.
  change (resolveWildcardNamespaces TrimSpace Match rangeKeys cluster
            kubeconfigPath EmptyString) with (@Ok (list string) []).
  rewrite buildConfig_path, Hconfig, Hclient. simpl.
  split; [|done]. eexists. split; [done|done].
Qed.

Lemma C10_witness :
  resolveWildcardNamespaces strings.TrimSpace filepath.Match scenario.rangeKeys
    scenario.cluster scenario.kubeconfig "kube-*, *-test" = Ok []
  ∧ (∃ h, startHealer strings.TrimSpace filepath.Match scenario.rangeKeys
            scenario.cluster scenario.kubeconfig "kube-*, *-test" (10 * time.Minute)
          = Watching h [healer.NamespaceAll]
          ∧ healer.Namespaces h = [healer.NamespaceAll])
  ∧ startHealer strings.TrimSpace filepath.Match scenario.rangeKeys
      scenario.cluster scenario.kubeconfig "kube-*, *-test" (10 * time.Minute)
    = startHealer strings.TrimSpace filepath.Match scenario.rangeKeys
        scenario.cluster scenario.kubeconfig EmptyString (10 * time.Minute).
Proof.
  refine (C10_unmatched_wildcard_watches_all strings.TrimSpace filepath.Match
            scenario.rangeKeys scenario.cluster scenario.kubeconfig "kube-*, *-test"
            ["app-dev"; "app-prod"; "infra"] (10 * time.Minute) _ _ _ _ _ _).
  - intros m. reflexivity.
  - reflexivity.
  - reflexivity.
  - reflexivity.
  - reflexivity.
  - intros name Hname (p & Hp & Hm).
    change (map strings.TrimSpace (strings.Split_comma "kube-*, *-test"))
      with ["kube-*"; "*-test"] in Hp.
    apply elem_of_cons in Hp as [->|Hp];
      [|apply list_elem_of_singleton in Hp as ->];
      (apply elem_of_cons in Hname as [->|Hname];
       [|apply elem_of_cons in Hname as [->|Hname];
         [|apply list_elem_of_singleton in Hname as ->]]);
      vm_compute in Hm; discriminate.
Defined.

End ResolutionTheorems.

Section UnmanagedExample.

Import healer.

Lemma C4_witness :
  OwnerReferences scenario.worker_2 = []
  ∧ checkAndHealPod scenario.fresh scenario.worker_2 (scenario.at_second 5 None)
    = (scenario.fresh, [])
  ∧ deletions
      (checkAndHealPod scenario.fresh scenario.worker_2 (scenario.at_second 5 None)).2
    = []
  ∧ healer_pkg.checkAndHealPod scenario.worker_2 None = []
  ∧ deletions (healer_pkg.checkAndHealPod scenario.worker_2 None) = [].
Proof.
  split; [reflexivity|].
  exact (C4_unmanaged_never_deleted scenario.fresh scenario.worker_2
           (scenario.at_second 5 None) None eq_refl).
Defined.

(** ns/worker-2 is unhealthy by its statuses all the same. *)
Example worker_2_unhealthy :
  classify scenario.worker_2 = Unhealthy "Persistent CrashLoopBackOff (Restarts: 10)".
Proof. reflexivity. Qed.

End UnmanagedExample.

(** * Further properties of the code *)

(** ** Package util: the two loops agree *)

Section ClassifierAgreement.

Import util.

Lemma loops_agree (ns name : string) (statuses : list ContainerStatus) :
  ((IsUnhealthy_range ns name statuses).1 = true ∧
   ∃ n, DefaultRestartThreshold ≤ n
        ∧ (IsUnhealthy_range ns name statuses).2 = [LogCheck ns name n]
        ∧ GetHealReason_range statuses
          = "Persistent CrashLoopBackOff (Restarts: " +:+ fmt_d n +:+ ")")
  ∨ ((IsUnhealthy_range ns name statuses).1 = false
     ∧ (IsUnhealthy_range ns name statuses).2 = []
     ∧ GetHealReason_range statuses = "Unspecified Failure").
Proof.
  induction statuses as [|status rest IH].
  - right. done.
  - rewrite IsUnhealthy_range_cons, GetHealReason_range_cons.
    destruct (qualifiesb status) eqn:Hq; [|exact IH].
    left. split; [done|]. exists (RestartCount status).
    apply qualifiesb_spec in Hq as [_ Hn]. done.
Qed.

(** X1.  [IsUnhealthy] prints its line exactly when it returns true, and
    the restart count of that line is the one [GetHealReason] puts in
    the reason, at least the threshold; [GetHealReason] falls back to
    "Unspecified Failure" exactly for the Pods [IsUnhealthy] finds
    healthy. *)
Theorem X1_check_line_and_reason_agree (pod : Pod) :
  ((IsUnhealthy pod).1 = true →
   ∃ n, DefaultRestartThreshold ≤ n
        ∧ (IsUnhealthy pod).2 = [LogCheck (Namespace pod) (Name pod) n]
        ∧ GetHealReason pod
          = "Persistent CrashLoopBackOff (Restarts: " +:+ fmt_d n +:+ ")")
  ∧ ((IsUnhealthy pod).1 = false → (IsUnhealthy pod).2 = [])
  ∧ (GetHealReason pod = "Unspecified Failure" ↔ (IsUnhealthy pod).1 = false).
Proof.
  unfold IsUnhealthy, GetHealReason.
  destruct (loops_agree (Namespace pod) (Name pod) (ContainerStatuses (Status pod)))
    as [[Hu (n & Hn & Hline & Hreason)]|(Hu & Hline & Hreason)].
  - split; [by eauto|]. split; [congruence|].
    rewrite Hu, Hreason. split; [|done]. simpl. discriminate.
  - split; [congruence|]. split; [done|]. by rewrite Hu, Hreason.
Qed.

Lemma IsUnhealthy_range_mono (ns1 name1 ns2 name2 : string)
  (l1 l2 : list ContainerStatus) :
  (∀ s, s ∈ l1 → s ∈ l2) →
  (IsUnhealthy_range ns1 name1 l1).1 = true →
  (IsUnhealthy_range ns2 name2 l2).1 = true.
Proof.
  rewrite !IsUnhealthy_range_true, !Exists_exists.
  intros Hsub (s & Hin & Hq). exists s. auto.
Qed.

(** X2.  The verdict depends on which container statuses a Pod has, not
    on their order, nor on the Pod's name: two Pods whose status lists
    are permutations of each other get the same verdict. *)
Theorem X2_verdict_ignores_order (pod1 pod2 : Pod) :
  ContainerStatuses (Status pod1) ≡ₚ ContainerStatuses (Status pod2) →
  (IsUnhealthy pod1).1 = (IsUnhealthy pod2).1.
Proof.
  intros Hperm. unfold IsUnhealthy.
  destruct (IsUnhealthy_range (Namespace pod1) _ _).1 eqn:H1.
  - symmetry. eapply IsUnhealthy_range_mono; [|exact H1].
    intros s. by rewrite Hperm.
  - destruct (IsUnhealthy_range (Namespace pod2) _ _).1 eqn:H2; [|done].
    rewrite <- H1. eapply IsUnhealthy_range_mono; [|exact H2].
    intros s. by rewrite Hperm.
Qed.

End ClassifierAgreement.

Lemma X2_witness :
  (util.IsUnhealthy
     {| Namespace := "ns"; Name := "api-1"; OwnerReferences := scenario.owners;
        Status := {| ContainerStatuses := [scenario.running; scenario.crashLoop 4] |} |}).1
  = (util.IsUnhealthy
       {| Namespace := "ns"; Name := "api-2"; OwnerReferences := scenario.owners;
          Status := {| ContainerStatuses := [scenario.crashLoop 4; scenario.running] |} |}).1.
Proof.
  apply X2_verdict_ignores_order. simpl. apply perm_swap.
Defined.

(** The reason does depend on the order: it names the first status
    that qualifies. *)
Example reason_follows_order :
  util.GetHealReason_range [scenario.crashLoop 4; scenario.crashLoop 7]
    = "Persistent CrashLoopBackOff (Restarts: 4)"
  ∧ util.GetHealReason_range [scenario.crashLoop 7; scenario.crashLoop 4]
    = "Persistent CrashLoopBackOff (Restarts: 7)".
Proof. split; reflexivity. Qed.

(** ** The update handler and the rest of the healer *)

Section HandlerFrame.

Import healer.

(** X3.  A call of [checkAndHealPod] leaves the namespace list and the
    cooldown alone, touches no entry of the store but the one of its
    Pod, and never removes an entry. *)
Theorem X3_handler_frame (h : Healer) (pod : Pod) (w : World) :
  Namespaces (checkAndHealPod h pod w).1 = Namespaces h
  ∧ HealCooldown (checkAndHealPod h pod w).1 = HealCooldown h
  ∧ (∀ k, k ≠ podKey pod →
       HealedPods (checkAndHealPod h pod w).1 !! k = HealedPods h !! k)
  ∧ (∀ k, is_Some (HealedPods h !! k) →
       is_Some (HealedPods (checkAndHealPod h pod w).1 !! k)).
Proof.
  unfold checkAndHealPod, healIfUnhealthy.
  destruct (length (OwnerReferences pod) =? 0)%nat; [done|].
  destruct (shouldSkip h (podKey pod) (sinceNow w)); [done|].
  destruct (util.IsUnhealthy pod) as [[] printed]; [|done].
  cbn [fst set_HealedPods Namespaces HealCooldown HealedPods].
  split; [done|]. split; [done|]. split.
  - intros k Hk. by rewrite lookup_insert_ne.
  - intros k Hk. rewrite lookup_insert_is_Some'. by right.
Qed.

Lemma append_slash_inj (a b c d : string) :
  strings.Contains_byte filepath.Separator a = false →
  strings.Contains_byte filepath.Separator c = false →
  a +:+ "/" +:+ b = c +:+ "/" +:+ d → a = c ∧ b = d.
Proof.
  assert (Hcons : ∀ x s t, String x s +:+ t = String x (s +:+ t)) by done.
  assert (Hnil : ∀ t, EmptyString +:+ t = t) by done.
  revert c. induction a as [|x a IH]; intros [|y c]; simpl;
    rewrite ?Hcons, ?Hnil.
  - intros _ _ [= ->]. done.
  - intros _ [Hy _]%orb_false_elim [= <- _]. done.
  - intros [Hx _]%orb_false_elim _ [= -> _]. done.
  - intros [_ Ha]%orb_false_elim [_ Hc]%orb_false_elim [= -> Heq].
    destruct (IH c Ha Hc Heq) as [-> ->]. done.
Qed.

(** X4.  The key of the store, "namespace/name", tells Pods apart as
    long as namespaces hold no slash (Kubernetes allows none): two
    Pods with the same key have the same namespace and the same
    name. *)
Theorem X4_podKey_injective (pod1 pod2 : Pod) :
  strings.Contains_byte filepath.Separator (Namespace pod1) = false →
  strings.Contains_byte filepath.Separator (Namespace pod2) = false →
  podKey pod1 = podKey pod2 →
  Namespace pod1 = Namespace pod2 ∧ Name pod1 = Name pod2.
Proof. unfold podKey. apply append_slash_inj. Qed.

Lemma X4_witness :
  Namespace (scenario.api_1 4) = Namespace (scenario.api_1 5)
  ∧ Name (scenario.api_1 4) = Name (scenario.api_1 5).
Proof.
  apply (X4_podKey_injective (scenario.api_1 4) (scenario.api_1 5));
    reflexivity.
Defined.

(** X5.  With a cooldown of zero or less nothing is ever skipped: an
    owned, unhealthy Pod is deleted at every update, whatever the store
    holds. *)
Theorem X5_no_cooldown_no_skip (h : Healer) (pod : Pod) (w : World) :
  HealCooldown h ≤ 0 →
  time.reading (sinceNow w) → timing.written_by (sinceNow w) h →
  OwnerReferences pod ≠ [] → (util.IsUnhealthy pod).1 = true →
  shouldSkip h (podKey pod) (sinceNow w) = false
  ∧ deletions (checkAndHealPod h pod w).2 = [ActDelete (Namespace pod) (Name pod)].
Proof.
  intros Hc Hnow Hstore Ho Hu.
  assert (Hs : shouldSkip h (podKey pod) (sinceNow w) = false).
  { unfold shouldSkip. destruct (HealedPods h !! podKey pod) as [t|] eqn:Hk; [|done].
    destruct (Hstore _ _ Hk) as [Ht0 Ht]. unfold time.reading in *.
    rewrite Sub_readings by (unfold time.reading; lia).
    apply Z.ltb_ge. lia. }
  split; [done|].
  destruct (checkAndHealPod_deletions h pod w)
    as [(_ & _ & _ & Hd & _)|([?|[?|?]] & _)]; [done|congruence..].
Qed.

End HandlerFrame.

Section HandlerFrameExamples.

Import healer.

Lemma X5_witness :
  shouldSkip stores.impatient (podKey (scenario.api_1 4))
    (sinceNow (scenario.at_second 5 None)) = false
  ∧ deletions
      (checkAndHealPod stores.impatient (scenario.api_1 4) (scenario.at_second 5 None)).2
    = [ActDelete "ns" "api-1"].
Proof.
  refine (X5_no_cooldown_no_skip stores.impatient
            (scenario.api_1 4) (scenario.at_second 5 None) _ _ _ _ _).
  - by_computation.
  - by_computation.
  - intros k t Hk. unfold stores.impatient, HealedPods in Hk.
    apply lookup_singleton_Some in Hk as [_ <-]. by_computation.
  - discriminate.
  - reflexivity.
Defined.

(** With a slash in a namespace two Pods could share a key. *)
Example podKey_needs_no_slash :
  podKey {| Namespace := "a/b"; Name := "c"; OwnerReferences := [];
            Status := {| ContainerStatuses := [] |} |}
  = podKey {| Namespace := "a"; Name := "b/c"; OwnerReferences := [];
              Status := {| ContainerStatuses := [] |} |}.
Proof. reflexivity. Qed.

Lemma deletions_old (pod : Pod) (err : option APIError) :
  deletions (healer_pkg.checkAndHealPod pod err)
  = if negb (length (OwnerReferences pod) =? 0)%nat && (util.IsUnhealthy pod).1
    then [ActDelete (Namespace pod) (Name pod)] else [].
Proof.
  unfold healer_pkg.checkAndHealPod.
  destruct (length (OwnerReferences pod) =? 0)%nat; [done|].
  pose proof (deletions_printed pod) as Hp.
  destruct (util.IsUnhealthy pod) as [[] printed]; simpl in *.
  - change (List.filter is_delete ?l) with (deletions l).
    rewrite deletions_app, Hp. by destruct err.
  - done.
Qed.

(** X6.  The revision without cooldown store deletes an owned,
    unhealthy Pod at every update.  The revision with the store issues
    the same delete calls whenever the Pod is not within its cooldown,
    and none when it is. *)
Theorem X6_revisions_agree_outside_cooldown (h : Healer) (pod : Pod) (w : World) :
  deletions (healer_pkg.checkAndHealPod pod (deleteErr w))
  = (if negb (length (OwnerReferences pod) =? 0)%nat && (util.IsUnhealthy pod).1
     then [ActDelete (Namespace pod) (Name pod)] else [])
  ∧ deletions (checkAndHealPod h pod w).2
    = (if shouldSkip h (podKey pod) (sinceNow w) then []
       else deletions (healer_pkg.checkAndHealPod pod (deleteErr w))).
Proof.
  split; [apply deletions_old|]. rewrite deletions_old.
  destruct (checkAndHealPod_deletions h pod w)
    as [(Ho%owned_length & Hs & Hu & Hd & _)|([Ho|[Hs|Hu]] & Hd & _)];
    rewrite Hd.
  - by rewrite Ho, Hs, Hu.
  - rewrite Ho. by destruct (shouldSkip _ _ _).
  - by rewrite Hs.
  - rewrite Hu, andb_false_r. by destruct (shouldSkip _ _ _).
Qed.

End HandlerFrameExamples.

(** ** The sweep: order, what it removes, what it leaves *)

Section SweepProperties.

Import healer.

(** X7.  The sweep deletes from the map while ranging over it, in an
    order the Go runtime picks; the store it leaves is the same for
    every order. *)
Theorem X7_sweep_any_range_order (h : Healer) (now : Z) (entries : list (string * Z)) :
  entries ≡ₚ map_to_list (HealedPods h) →
  sweep_range now (HealCooldown h) entries (HealedPods h) = HealedPods (sweep h now).
Proof.
  intros Hperm. apply map_eq. intros k.
  rewrite sweep_lookup. apply sweep_range_lookup.
  intros key t. rewrite Hperm. apply elem_of_map_to_list.
Qed.

Lemma Healer_eq (h1 h2 : Healer) :
  Namespaces h1 = Namespaces h2 → HealedPods h1 = HealedPods h2 →
  HealCooldown h1 = HealCooldown h2 → h1 = h2.
Proof. destruct h1, h2. simpl. by intros -> -> ->. Qed.

(** X8.  A sweep only removes: what it leaves is part of the store it
    found, with the same times; it changes neither the namespace list
    nor the cooldown; and a second sweep at the same time removes
    nothing more. *)
Theorem X8_sweep_only_removes (h : Healer) (now : Z) :
  HealedPods (sweep h now) ⊆ HealedPods h
  ∧ Namespaces (sweep h now) = Namespaces h
  ∧ HealCooldown (sweep h now) = HealCooldown h
  ∧ sweep (sweep h now) now = sweep h now.
Proof.
  split; [|split; [done|split; [done|]]].
  - apply map_subseteq_spec. intros k t. apply sweep_lookup_Some.
  - assert (Hm : HealedPods (sweep (sweep h now) now) = HealedPods (sweep h now)).
    { apply map_eq. intros k. rewrite (sweep_lookup (sweep h now)).
      rewrite sweep_HealCooldown, sweep_lookup.
      destruct (HealedPods h !! k) as [t|]; [|done].
      destruct (expired now (HealCooldown h) t) eqn:He; [done|]. by rewrite He. }
    by apply Healer_eq.
Qed.

Lemma trace_by_skip (h1 h2 : Healer) (pod : Pod) (w : World) :
  shouldSkip h1 (podKey pod) (sinceNow w) = shouldSkip h2 (podKey pod) (sinceNow w) →
  (checkAndHealPod h1 pod w).2 = (checkAndHealPod h2 pod w).2.
Proof.
  intros Hs. unfold checkAndHealPod, healIfUnhealthy. rewrite Hs.
  destruct (length (OwnerReferences pod) =? 0)%nat; [done|].
  destruct (shouldSkip h2 (podKey pod) (sinceNow w)); [done|].
  by destruct (util.IsUnhealthy pod) as [[] printed].
Qed.

(** X9.  As long as twice the cooldown fits 64 bits, a sweep is
    housekeeping only: it changes no later skip decision, so a call
    that follows it prints and does what it would have without the
    sweep. *)
Theorem X9_sweep_changes_no_decision (h : Healer) (tick : Z) (pod : Pod) (w : World) :
  - 2 ^ 62 ≤ HealCooldown h < 2 ^ 62 →
  timing.written_by tick h → tick ≤ sinceNow w → time.reading (sinceNow w) →
  shouldSkip (sweep h tick) (podKey pod) (sinceNow w)
    = shouldSkip h (podKey pod) (sinceNow w)
  ∧ (checkAndHealPod (sweep h tick) pod w).2 = (checkAndHealPod h pod w).2.
Proof.
  intros Hc Hstore Htick Hnow.
  assert (Hs : shouldSkip (sweep h tick) (podKey pod) (sinceNow w)
               = shouldSkip h (podKey pod) (sinceNow w)).
  { unfold shouldSkip. rewrite sweep_lookup, sweep_HealCooldown.
    destruct (HealedPods h !! podKey pod) as [t|] eqn:Hk; [|done].
    destruct (expired tick (HealCooldown h) t) eqn:He; [|done].
    destruct (Hstore _ _ Hk) as [Ht0 Ht]. unfold time.reading in *.
    apply expired_age in He; [|done|unfold time.reading; lia..].
    rewrite Sub_readings by (unfold time.reading; lia).
    symmetry. apply Z.ltb_ge. lia. }
  split; [done|]. by apply trace_by_skip.
Qed.

Lemma wrap64_double_large (cooldown : Z) :
  2 ^ 62 ≤ cooldown ≤ time.maxDuration →
  time.wrap64 (2 * cooldown) = 2 * cooldown - 2 ^ 64.
Proof.
  unfold time.maxDuration, time.wrap64. intros Hc.
  replace (2 * cooldown + 2 ^ 63) with (2 * cooldown - 2 ^ 63 + 1 * 2 ^ 64) by lia.
  rewrite Z_mod_plus_full, Z.mod_small by lia. lia.
Qed.

(** X10.  With a cooldown of 2^62 ns or more the product
    [2*h.HealCooldown] wraps to a negative duration, and every sweep
    removes every entry, the ones still within their cooldown
    included. *)
Theorem X10_long_cooldown_sweep_empties (h : Healer) (now : Z) :
  2 ^ 62 ≤ HealCooldown h ≤ time.maxDuration →
  time.reading now → timing.written_by now h →
  HealedPods (sweep h now) = ∅.
Proof.
  intros Hc Hnow Hstore. apply map_eq. intros k.
  rewrite sweep_lookup, lookup_empty.
  destruct (HealedPods h !! k) as [t|] eqn:Hk; [|done].
  destruct (Hstore _ _ Hk) as [Ht0 Ht]. unfold time.reading in *.
  unfold expired. rewrite wrap64_double_large by done.
  rewrite Sub_readings by (unfold time.reading; lia).
  unfold time.maxDuration in *.
  destruct (2 * HealCooldown h - 2 ^ 64 <? now - t) eqn:Hlt; [done|].
  apply Z.ltb_ge in Hlt. lia.
Qed.

Lemma cleaner_only_removes (received : list Select) (h : Healer) :
  HealedPods (cleaner h received) ⊆ HealedPods h.
Proof.
  revert h. induction received as [|[tick|] rest IH]; intros h; simpl; [done| |done].
  etrans; [apply IH|]. apply map_subseteq_spec. intros k t. apply sweep_lookup_Some.
Qed.

(** X11.  Once the cleaner has received from the stop channel it
    returns: whatever comes later, ticks included, sweeps nothing; and
    all it ever does to the store is to remove entries. *)
Theorem X11_cleaner_stops (h : Healer) (before later : list Select) :
  cleaner h (before ++ StopCh :: later) = cleaner h before
  ∧ HealedPods (cleaner h (before ++ StopCh :: later)) ⊆ HealedPods h.
Proof.
  split; [|apply cleaner_only_removes].
  revert h. induction before as [|[tick|] before IH]; intros h; simpl; [done| |done].
  apply IH.
Qed.

End SweepProperties.

Section SweepPropertiesExamples.

Import healer.

Lemma X7_witness :
  sweep_range (1300 * time.Second) (HealCooldown stores.two_healed)
    (reverse (map_to_list (HealedPods stores.two_healed)))
    (HealedPods stores.two_healed)
  = HealedPods (sweep stores.two_healed (1300 * time.Second)).
Proof.
  apply (X7_sweep_any_range_order stores.two_healed (1300 * time.Second)).
  apply reverse_Permutation.
Defined.

(** That sweep removes ns/api-1 and keeps ns/db-0. *)
Example sweep_two_healed :
  HealedPods (sweep stores.two_healed (1300 * time.Second))
  = {[ "ns/db-0" := 700 * time.Second ]}.
Proof. vm_compute. reflexivity. Qed.

Lemma X9_witness :
  shouldSkip (sweep scenario.healed (20 * time.Second)) (podKey (scenario.api_1 5))
    (sinceNow (scenario.at_second 35 None))
  = shouldSkip scenario.healed (podKey (scenario.api_1 5))
      (sinceNow (scenario.at_second 35 None))
  ∧ (checkAndHealPod (sweep scenario.healed (20 * time.Second)) (scenario.api_1 5)
       (scenario.at_second 35 None)).2
    = (checkAndHealPod scenario.healed (scenario.api_1 5) (scenario.at_second 35 None)).2.
Proof.
  refine (X9_sweep_changes_no_decision scenario.healed (20 * time.Second)
            (scenario.api_1 5) (scenario.at_second 35 None) _ _ _ _).
  - by_computation.
  - intros k t Hk. unfold scenario.healed, HealedPods in Hk.
    apply lookup_singleton_Some in Hk as [_ <-]. by_computation.
  - by_computation.
  - by_computation.
Defined.

Lemma X10_witness : HealedPods (sweep scenario.patient (5 * time.Second)) = ∅.
Proof.
  refine (X10_long_cooldown_sweep_empties scenario.patient (5 * time.Second) _ _ _).
  - by_computation.
  - by_computation.
  - intros k t Hk. unfold scenario.patient, HealedPods in Hk.
    apply lookup_singleton_Some in Hk as [_ <-]. by_computation.
Defined.

End SweepPropertiesExamples.

(** ** One update after the other: heals are a cooldown apart *)

Section Spacing.

Import healer timing.

Lemma record_times_app (key : string) (a b : list Action) :
  record_times key (a ++ b) = record_times key a ++ record_times key b.
Proof.
  induction a as [|x a IH]; [done|].
  destruct x; simpl; try exact IH.
  destruct (String.eqb podKey0 key); simpl; by rewrite IH.
Qed.

Lemma record_times_printed (key : string) (pod : Pod) :
  record_times key (util.IsUnhealthy pod).2 = [].
Proof.
  unfold util.IsUnhealthy.
  pose proof (IsUnhealthy_range_printed (Namespace pod) (Name pod)
                (ContainerStatuses (Status pod))) as Hp.
  induction (util.IsUnhealthy_range _ _ _).2 as [|a l IH]; [done|].
  destruct (Hp a) as [n ->]; [by left|]. simpl. apply IH.
  intros b Hb. apply Hp. by right.
Qed.

(** What a call does to the store and which time it records. *)
Lemma call_summary (h : Healer) (pod : Pod) (w : World) (key : string) :
  (shouldSkip h (podKey pod) (sinceNow w) = false
   ∧ HealedPods (checkAndHealPod h pod w).1
     = <[podKey pod := recordNow w]> (HealedPods h)
   ∧ record_times key (checkAndHealPod h pod w).2
     = if String.eqb (podKey pod) key then [recordNow w] else [])
  ∨ ((checkAndHealPod h pod w).1 = h
     ∧ record_times key (checkAndHealPod h pod w).2 = []).
Proof.
  destruct (decide (OwnerReferences pod = [])) as [Ho|Ho].
  { right. by rewrite checkAndHealPod_unmanaged. }
  destruct (shouldSkip h (podKey pod) (sinceNow w)) eqn:Hs.
  { right. by rewrite checkAndHealPod_skip. }
  destruct (util.IsUnhealthy pod).1 eqn:Hu.
  - left. rewrite checkAndHealPod_heal by done. cbn [fst snd].
    split; [done|]. split; [done|].
    cbn [record_times]. rewrite !record_times_app, record_times_printed.
    destruct (deleteErr w); simpl; by destruct (String.eqb (podKey pod) key).
  - right. rewrite checkAndHealPod_healthy by done. cbn [fst snd record_times].
    by rewrite record_times_printed.
Qed.

Lemma written_by_later (clock clock' : Z) (h : Healer) :
  clock ≤ clock' → written_by clock h → written_by clock' h.
Proof. intros Hle Hstore k t Hk. destruct (Hstore k t Hk). lia. Qed.

(** After a heal of [key] at [last], every later heal of [key] is
    recorded at least a cooldown after [last], whether the entry is
    still in the store or a sweep has removed it. *)
Lemma records_after (key : string) (cooldown : Z) (inputs : list serial.Input) :
  0 ≤ cooldown < 2 ^ 62 →
  ∀ (h : Healer) (clock last : Z),
    HealCooldown h = cooldown → 0 ≤ last ≤ clock →
    written_by clock h → timed clock inputs →
    (HealedPods h !! key = Some last
     ∨ (HealedPods h !! key = None ∧ cooldown ≤ clock - last)) →
    ∀ t, t ∈ record_times key (serial.serve h inputs).2 → cooldown ≤ t - last.
Proof.
  intros Hc. induction inputs as [|[pod w|now] rest IH];
    intros h clock last Hcd Hlast Hstore Htimed Hkey t Ht.
  - by apply elem_of_nil in Ht.
  - destruct Htimed as (Hs1 & Hs2 & Hr & Hrest). unfold time.reading in Hr.
    simpl in Ht.
    pose proof (checkAndHealPod_HealCooldown h pod w) as Hcd1.
    pose proof (call_summary h pod w key) as Hsum.
    destruct (checkAndHealPod h pod w) as [h1 acts1].
    destruct (serial.serve h1 rest) as [h2 acts2] eqn:Hserve.
    cbn [fst snd] in *. rewrite record_times_app, elem_of_app in Ht.
    assert (Hrest_times : ∀ last', 0 ≤ last' ≤ recordNow w → written_by (recordNow w) h1 →
              (HealedPods h1 !! key = Some last'
               ∨ (HealedPods h1 !! key = None ∧ cooldown ≤ recordNow w - last')) →
              t ∈ record_times key acts2 → cooldown ≤ t - last').
    { intros last' Hl' Hst' Hk' Hin.
      apply (IH h1 (recordNow w) last'); try done; [congruence|by rewrite Hserve]. }
    destruct Hsum as [(Hskip & Hm & Htimes)|[-> Htimes]].
    + assert (Hst1 : written_by (recordNow w) h1).
      { intros k t' Hk'. rewrite Hm in Hk'.
        apply lookup_insert_Some in Hk' as [[_ <-]|[_ Hk']]; [lia|].
        destruct (Hstore _ _ Hk'). lia. }
      destruct Ht as [Ht|Ht].
      * rewrite Htimes in Ht.
        destruct (String.eqb (podKey pod) key) eqn:Heqb; [|by apply elem_of_nil in Ht].
        apply String.eqb_eq in Heqb. apply list_elem_of_singleton in Ht as ->.
        destruct Hkey as [Hk|[_ Hgone]]; [|lia].
        unfold shouldSkip in Hskip. rewrite Heqb, Hk in Hskip.
        rewrite Sub_readings in Hskip by (unfold time.reading; lia).
        apply Z.ltb_ge in Hskip. lia.
      * destruct (decide (podKey pod = key)) as [Heq|Hne].
        -- assert (cooldown ≤ t - recordNow w); [|lia].
           apply Hrest_times; [lia|done| |done].
           left. rewrite Hm, Heq. apply lookup_insert_eq.
        -- apply Hrest_times; [lia|done| |done].
           rewrite Hm, lookup_insert_ne by done.
           destruct Hkey as [Hk|[Hk Hgone]]; [by left|right; split; [done|lia]].
    + rewrite Htimes in Ht. destruct Ht as [Ht|Ht]; [by apply elem_of_nil in Ht|].
      apply Hrest_times; [lia| |
        destruct Hkey as [Hk|[Hk Hgone]]; [by left|right; split; [done|lia]] |done].
      eapply written_by_later; [|done]. lia.
  - destruct Htimed as (Hnow1 & Hnow & Hrest). simpl in Ht.
    apply (IH (sweep h now) now last); try done.
    + lia.
    + intros k t' Hk'. apply sweep_lookup_Some in Hk'.
      destruct (Hstore _ _ Hk'). lia.
    + rewrite sweep_lookup. destruct Hkey as [Hk|[Hk Hgone]].
      * rewrite Hk. destruct (expired now (HealCooldown h) last) eqn:He; [|by left].
        right. split; [done|]. unfold time.reading in Hnow.
        apply expired_age in He; [|lia|done|unfold time.reading; lia]. lia.
      * rewrite Hk. right. split; [done|lia].
Qed.

Lemma spaced_cons (gap t1 : Z) (times : list Z) :
  (∀ t, t ∈ times → gap ≤ t - t1) → spaced gap times → spaced gap (t1 :: times).
Proof.
  destruct times as [|t2 times]; [done|].
  intros Hall Hsp. split; [|done]. apply Hall. by left.
Qed.

(** X12.  When updates and sweeps come one after the other and the
    clock never goes back, two successive heals of one Pod are recorded
    at least a cooldown apart (for a cooldown from zero up to 2^62 ns),
    sweeps in between or not; and the first of them comes at least a
    cooldown after the entry the store held at the start. *)
Theorem X12_heals_a_cooldown_apart (h : Healer) (clock : Z)
  (inputs : list serial.Input) (key : string) :
  0 ≤ HealCooldown h < 2 ^ 62 → 0 ≤ clock →
  written_by clock h → timed clock inputs →
  spaced (HealCooldown h) (record_times key (serial.serve h inputs).2)
  ∧ ∀ last t, HealedPods h !! key = Some last →
              t ∈ record_times key (serial.serve h inputs).2 →
              HealCooldown h ≤ t - last.
Proof.
  intros Hc Hclock Hstore Htimed. split.
  - remember (HealCooldown h) as cooldown eqn:Hcd. symmetry in Hcd.
    revert h clock Hcd Hclock Hstore Htimed.
    induction inputs as [|[pod w|now] rest IH]; intros h clock Hcd Hclock Hstore Htimed.
    + done.
    + destruct Htimed as (Hs1 & Hs2 & Hr & Hrest). unfold time.reading in Hr. simpl.
      pose proof (checkAndHealPod_HealCooldown h pod w) as Hcd1.
      pose proof (call_summary h pod w key) as Hsum.
      destruct (checkAndHealPod h pod w) as [h1 acts1].
      pose proof (records_after key cooldown rest Hc h1 (recordNow w) (recordNow w)) as Hafter.
      specialize (IH h1 (recordNow w)).
      destruct (serial.serve h1 rest) as [h2 acts2].
      cbn [fst snd] in *. rewrite record_times_app.
      destruct Hsum as [(Hskip & Hm & Htimes)|[-> Htimes]]; rewrite Htimes.
      * assert (Hst1 : written_by (recordNow w) h1).
        { intros k t' Hk'. rewrite Hm in Hk'.
          apply lookup_insert_Some in Hk' as [[_ <-]|[_ Hk']]; [lia|].
          destruct (Hstore _ _ Hk'). lia. }
        destruct (String.eqb (podKey pod) key) eqn:Heqb.
        -- apply String.eqb_eq in Heqb. apply spaced_cons.
           ++ apply Hafter; [congruence|lia|done|done|].
              left. rewrite Hm, Heqb. apply lookup_insert_eq.
           ++ apply IH; [congruence|lia|done|done].
        -- apply IH; [congruence|lia|done|done].
      * apply IH; [congruence|lia| |done].
        eapply written_by_later; [|done]. lia.
    + destruct Htimed as (Hnow1 & Hnow & Hrest). simpl.
      apply (IH (sweep h now) now); [done|lia| |done].
      intros k t' Hk'. apply sweep_lookup_Some in Hk'.
      destruct (Hstore _ _ Hk'). lia.
  - intros last t Hk Ht.
    apply (records_after key (HealCooldown h) inputs Hc h clock last);
      try done; [|by left].
    destruct (Hstore _ _ Hk). lia.
Qed.

End Spacing.

Section SpacingExample.

Import healer timing.

(** ns/api-1 at seconds 5, 35 and 1400, a sweep at second 1300: healed
    at 5, skipped at 35, healed again at 1400. *)
Lemma X12_witness :
  spaced (HealCooldown scenario.fresh)
    (record_times "ns/api-1"
       (serial.serve scenario.fresh
          [serial.PodUpdated (scenario.api_1 4) (scenario.at_second 5 None);
           serial.PodUpdated (scenario.api_1 4) (scenario.at_second 35 None);
           serial.Tick (1300 * time.Second);
           serial.PodUpdated (scenario.api_1 5) (scenario.at_second 1400 None)]).2).
Proof.
  refine (proj1 (X12_heals_a_cooldown_apart scenario.fresh 0
                   [serial.PodUpdated (scenario.api_1 4) (scenario.at_second 5 None);
                    serial.PodUpdated (scenario.api_1 4) (scenario.at_second 35 None);
                    serial.Tick (1300 * time.Second);
                    serial.PodUpdated (scenario.api_1 5) (scenario.at_second 1400 None)]
                   "ns/api-1" _ _ _ _)).
  - by_computation.
  - by_computation.
  - intros k t Hk. unfold scenario.fresh, HealedPods in Hk.
    by rewrite lookup_empty in Hk.
  - by_computation.
Defined.

Example api_1_record_times :
  record_times "ns/api-1"
    (serial.serve scenario.fresh
       [serial.PodUpdated (scenario.api_1 4) (scenario.at_second 5 None);
        serial.PodUpdated (scenario.api_1 4) (scenario.at_second 35 None);
        serial.Tick (1300 * time.Second);
        serial.PodUpdated (scenario.api_1 5) (scenario.at_second 1400 None)]).2
  = [5 * time.Second; 1400 * time.Second].
Proof. reflexivity. Qed.

End SpacingExample.

(** ** Any interleaving: what is never deleted *)

Section GoroutinesSafety.

Import healer goroutines.

Lemma advance_facts (h h' : Healer) (c c' : Call) (acts : list Action) :
  advance h c = Some (h', c', acts) →
  pod c' = pod c
  ∧ (pc c' = PastCheck → OwnerReferences (pod c) ≠ [])
  ∧ (∀ ns name, ActDelete ns name ∈ acts →
       pc c = PastCheck ∧ ns = Namespace (pod c) ∧ name = Name (pod c)
       ∧ (util.IsUnhealthy (pod c)).1 = true).
Proof.
  unfold advance. destruct (pc c) eqn:Hpc.
  - destruct (length (OwnerReferences (pod c)) =? 0)%nat eqn:Ho.
    { intros [= <- <- <-]. split; [done|]. split; [done|].
      intros ns name ?%elem_of_nil. done. }
    apply owned_length in Ho.
    destruct (shouldSkip h (podKey (pod c)) (sinceNow (world c))).
    + intros [= <- <- <-]. split; [done|]. split; [done|].
      intros ns name [?|[?|?%elem_of_nil]%elem_of_cons]%elem_of_cons; done.
    + intros [= <- <- <-]. split; [done|]. split; [done|].
      intros ns name [?|?%elem_of_nil]%elem_of_cons; done.
  - pose proof (IsUnhealthy_range_printed (Namespace (pod c)) (Name (pod c))
                  (ContainerStatuses (Status (pod c)))) as Hp.
    change (util.IsUnhealthy_range _ _ _) with (util.IsUnhealthy (pod c)) in Hp.
    destruct (util.IsUnhealthy (pod c)) as [[] printed]; intros [= <- <- <-].
    + split; [done|]. split; [done|]. intros ns name Hin.
      apply elem_of_cons in Hin as [?|Hin]; [done|].
      apply elem_of_app in Hin as [Hin|Hin]; [by destruct (Hp _ Hin)|].
      apply elem_of_cons in Hin as [?|Hin]; [done|].
      unfold triggerPodDeletion in Hin.
      apply elem_of_cons in Hin as [Heq|Hin]; [by injection Heq|].
      destruct (deleteErr (world c));
        apply list_elem_of_singleton in Hin; done.
    + split; [done|]. split; [done|]. intros ns name Hin.
      apply elem_of_cons in Hin as [?|Hin]; [done|]. by destruct (Hp _ Hin).
  - intros [= <- <- <-]. split; [done|]. split; [done|].
    intros ns name [?|[?|?%elem_of_nil]%elem_of_cons]%elem_of_cons; done.
  - done.
Qed.

Lemma safe_step (start : list Call) (s s' : State) :
  step s s' → safe start s → safe start s'.
Proof.
  intros [s0 i c c' h' acts Hi Hadv] [Hcalls Hdel].
  destruct (advance_facts _ _ _ _ _ Hadv) as (Hpod & Howned & Hacts).
  destruct (Hcalls i c Hi) as [(c0 & Hc0 & Hpod0) Hpc].
  split; simpl.
  - intros j d Hj. apply list_lookup_insert_Some in Hj as [(<- & <- & _)|[Hne Hj]].
    + split; [exists c0; by rewrite Hpod|]. rewrite Hpod. apply Howned.
    + by apply Hcalls.
  - intros ns name [Hin|Hin]%elem_of_app; [by apply Hdel|].
    destruct (Hacts ns name Hin) as (Hpc' & -> & -> & Hu).
    exists i, c0. rewrite Hpod0. repeat split; [done..|by apply Hpc|done].
Qed.

(** X13.  However the scheduler interleaves the calls of the update
    handler, every delete call it issues is for the Pod of one of the
    calls, and that Pod has an owner and is unhealthy: no unmanaged and
    no healthy Pod is ever deleted. *)
Theorem X13_interleaved_deletes_are_owned_and_unhealthy (h : Healer)
  (start : list Call) (s : State) :
  Forall (λ c, pc c = AtEntry) start →
  rtc step {| shared := h; calls := start; emitted := [] |} s →
  ∀ ns name, ActDelete ns name ∈ emitted s →
    ∃ c, c ∈ start ∧ Namespace (pod c) = ns ∧ Name (pod c) = name
         ∧ OwnerReferences (pod c) ≠ [] ∧ (util.IsUnhealthy (pod c)).1 = true.
Proof.
  intros Hstart Hreach.
  assert (Hsafe : safe start s).
  { refine (rtc_ind_r (safe start) _ _ _ s Hreach).
    - split; simpl.
      + intros j c Hj. split; [by exists c|].
        rewrite Forall_lookup in Hstart. rewrite (Hstart j c Hj). done.
      + intros ns name ?%elem_of_nil. done.
    - intros y z _ Hstep Hy. by eapply safe_step. }
  intros ns name Hin. destruct Hsafe as [_ Hdel].
  destruct (Hdel ns name Hin) as (j & c0 & Hj & Hrest).
  exists c0. split; [|done]. by eapply list_elem_of_lookup_2.
Qed.

End GoroutinesSafety.

Section GoroutinesSafetyExample.

Import healer goroutines.

Lemma X13_witness :
  ∃ c, c ∈ [call (scenario.api_1 4) (scenario.at_second 5 None);
            call scenario.worker_2 (scenario.at_second 5 None)]
       ∧ Namespace (pod c) = "ns" ∧ Name (pod c) = "api-1"
       ∧ OwnerReferences (pod c) ≠ [] ∧ (util.IsUnhealthy (pod c)).1 = true.
Proof.
  refine (X13_interleaved_deletes_are_owned_and_unhealthy scenario.fresh
            [call (scenario.api_1 4) (scenario.at_second 5 None);
             call scenario.worker_2 (scenario.at_second 5 None)]
            (run [0; 1; 0; 1; 0; 1]%nat
               {| shared := scenario.fresh;
                  calls := [call (scenario.api_1 4) (scenario.at_second 5 None);
                            call scenario.worker_2 (scenario.at_second 5 None)];
                  emitted := [] |})
            _ _ "ns" "api-1" _).
  - repeat constructor.
  - apply run_steps.
  - vm_compute. do 4 right. left.
Defined.

(** In that interleaving ns/worker-2, unmanaged, is left alone. *)
Example interleaved_deletions :
  deletions
    (emitted
       (run [0; 1; 0; 1; 0; 1]%nat
          {| shared := scenario.fresh;
             calls := [call (scenario.api_1 4) (scenario.at_second 5 None);
                       call scenario.worker_2 (scenario.at_second 5 None)];
             emitted := [] |}))
  = [ActDelete "ns" "api-1"].
Proof. reflexivity. Qed.

End GoroutinesSafetyExample.

(** ** Start-up: inputs without wildcard, errors, what is watched *)

Section StartUp.

Import kube main.






(** X15.  With a wildcard in the input and a cluster that answers, the
    result holds exactly the existing namespaces that some pattern
    matches without error, each once, however often the cluster lists a
    name and however many patterns match it; a pattern [Match] rejects
    adds nothing and stops nothing. *)
Theorem X15_wildcards_resolve_to_matching_namespaces
  (TrimSpace : string → string) (Match : string → string → bool * option string)
  (rangeKeys : gmap string bool → list string)
  (cluster : Cluster) (kubeconfigPath namespacesInput : string)
  (items : list string) :
  (∀ m, rangeKeys m ≡ₚ (map_to_list m).*1) →
  strings.is_empty namespacesInput = false →
  existsb (strings.Contains_byte filepath.star)
    (map TrimSpace (strings.Split_comma namespacesInput)) = true →
  BuildConfigFromFlags cluster kubeconfigPath = None →
  NewForConfig cluster = None →
  ListNamespaces cluster = inr items →
  ∃ l, resolveWildcardNamespaces TrimSpace Match rangeKeys cluster
         kubeconfigPath namespacesInput = Ok l
       ∧ NoDup l
       ∧ ∀ name, name ∈ l ↔
           name ∈ items
           ∧ ∃ pattern, pattern ∈ map TrimSpace (strings.Split_comma namespacesInput)
                        ∧ Match pattern name = (true, None).
Proof. intros Hrange. by apply resolve_wildcards. Qed.

(** X16.  Start-up never goes on after an error: when building the
    configuration or the client set fails, or when the input holds a
    wildcard and listing the namespaces fails, [startHealer] exits and
    starts no watcher; in particular a failed resolution does not end
    in watching all namespaces. *)
Theorem X16_startup_errors_exit
  (TrimSpace : string → string) (Match : string → string → bool * option string)
  (rangeKeys : gmap string bool → list string)
  (cluster : Cluster) (kubeconfigPath namespacesInput : string) (healCooldown : Z) :
  (is_Some (BuildConfigFromFlags cluster kubeconfigPath)
   ∨ is_Some (NewForConfig cluster)
   ∨ (strings.is_empty namespacesInput = false
      ∧ existsb (strings.Contains_byte filepath.star)
          (map TrimSpace (strings.Split_comma namespacesInput)) = true
      ∧ ∃ err, ListNamespaces cluster = inl err)) →
  ∃ msg, startHealer TrimSpace Match rangeKeys cluster kubeconfigPath
           namespacesInput healCooldown = Exit1 msg.
Proof.
  intros Hfail. unfold startHealer, resolveWildcardNamespaces, healer.NewHealer.
  rewrite !buildConfig_path.
  destruct (strings.is_empty namespacesInput) eqn:Hinput;
    [|destruct (existsb _ _) eqn:Hstar]; simpl.
  - destruct Hfail as [[e He]|[[e He]|(? & _)]]; [| |done].
    + rewrite He. by eexists.
    + rewrite He. destruct (BuildConfigFromFlags _ _); by eexists.
  - destruct (BuildConfigFromFlags cluster kubeconfigPath) as [e|] eqn:Hb;
      [by eexists|].
    destruct (NewForConfig cluster) as [e|] eqn:Hn; [by eexists|].
    destruct Hfail as [[e He]|[[e He]|(_ & _ & e & He)]]; [done..|].
    rewrite He. by eexists.
  - destruct Hfail as [[e He]|[[e He]|(_ & ? & _)]]; [| |done].
    + rewrite He. by eexists.
    + rewrite He. destruct (BuildConfigFromFlags _ _); by eexists.
Qed.

(** X17.  When start-up does go on, the healer it runs has an empty
    store and the cooldown of the flag, and it watches what resolution
    returned, or all namespaces when that was empty; there is always
    at least one watcher. *)
Theorem X17_startup_watches_resolved
  (TrimSpace : string → string) (Match : string → string → bool * option string)
  (rangeKeys : gmap string bool → list string)
  (cluster : Cluster) (kubeconfigPath namespacesInput : string) (healCooldown : Z)
  (h : healer.Healer) (watched : list string) :
  startHealer TrimSpace Match rangeKeys cluster kubeconfigPath
    namespacesInput healCooldown = Watching h watched →
  healer.HealedPods h = ∅
  ∧ healer.HealCooldown h = healCooldown
  ∧ healer.Namespaces h = watched
  ∧ watched ≠ []
  ∧ ∃ l, resolveWildcardNamespaces TrimSpace Match rangeKeys cluster
           kubeconfigPath namespacesInput = Ok l
         ∧ watched = (if (length l =? 0)%nat then [healer.NamespaceAll] else l).
Proof.
  unfold startHealer, healer.NewHealer.
  destruct (resolveWildcardNamespaces _ _ _ _ _ _) as [l|msg]; [|done].
  destruct (if negb _ then _ else _); [done|].
  destruct (NewForConfig cluster); [done|].
  unfold healer.Watch, healer.set_HealCooldown. simpl.
  destruct l as [|name l]; simpl; intros [= <- <-]; simpl;
    repeat split; try done; by eexists.
Qed.

End StartUp.

Section StartUpExamples.

Import kube main.


Example entries_as_given :
  map strings.TrimSpace (strings.Split_comma "prod, staging ,,prod")
  = ["prod"; "staging"; EmptyString; "prod"].
Proof. reflexivity. Qed.

Lemma X15_witness :
  ∃ l, resolveWildcardNamespaces strings.TrimSpace filepath.Match scenario.rangeKeys
         scenario.cluster scenario.kubeconfig "app-*, [, *-dev, prod" = Ok l
       ∧ NoDup l
       ∧ ∀ name, name ∈ l ↔
           name ∈ ["app-dev"; "app-prod"; "infra"]
           ∧ ∃ pattern,
               pattern ∈ map strings.TrimSpace (strings.Split_comma "app-*, [, *-dev, prod")
               ∧ filepath.Match pattern name = (true, None).
Proof.
  refine (X15_wildcards_resolve_to_matching_namespaces strings.TrimSpace filepath.Match
            scenario.rangeKeys scenario.cluster scenario.kubeconfig
            "app-*, [, *-dev, prod" ["app-dev"; "app-prod"; "infra"] _ _ _ _ _ _).
  - intros m. reflexivity.
  - reflexivity.
  - reflexivity.
  - reflexivity.
  - reflexivity.
  - reflexivity.
Defined.

(** The malformed pattern and the literal that names no namespace add
    nothing; app-dev, matched twice, is there once. *)
Example mixed_patterns_resolved :
  resolveWildcardNamespaces strings.TrimSpace filepath.Match scenario.rangeKeys
    scenario.cluster scenario.kubeconfig "app-*, [, *-dev, prod"
  = Ok ["app-dev"; "app-prod"].
Proof. vm_compute. reflexivity. Qed.

Lemma X16_witness :
  ∃ msg, startHealer strings.TrimSpace filepath.Match scenario.rangeKeys
           stores.unreachable scenario.kubeconfig "app-*" (10 * time.Minute)
         = Exit1 msg.
Proof.
  apply X16_startup_errors_exit. left. by eexists.
Defined.

Lemma X17_witness :
  healer.HealedPods
    {| healer.Namespaces := ["app-dev"; "app-prod"]; healer.HealedPods := ∅;
       healer.HealCooldown := 5 * time.Minute |} = ∅
  ∧ healer.HealCooldown
      {| healer.Namespaces := ["app-dev"; "app-prod"]; healer.HealedPods := ∅;
         healer.HealCooldown := 5 * time.Minute |} = 5 * time.Minute
  ∧ healer.Namespaces
      {| healer.Namespaces := ["app-dev"; "app-prod"]; healer.HealedPods := ∅;
         healer.HealCooldown := 5 * time.Minute |} = ["app-dev"; "app-prod"]
  ∧ ["app-dev"; "app-prod"] ≠ []
  ∧ ∃ l, resolveWildcardNamespaces strings.TrimSpace filepath.Match scenario.rangeKeys
           scenario.cluster scenario.kubeconfig "app-*" = Ok l
         ∧ ["app-dev"; "app-prod"]
           = (if (length l =? 0)%nat then [healer.NamespaceAll] else l).
Proof.
  apply (X17_startup_watches_resolved strings.TrimSpace filepath.Match
           scenario.rangeKeys scenario.cluster scenario.kubeconfig "app-*"
           (5 * time.Minute)).
  vm_compute. reflexivity.
Defined.

End StartUpExamples.

(** ** What a healing announcement means *)

Section Announcement.

Import healer.

(** X18.  When the handler announces a healing action, the announcement
    names the Pod of the call and a CrashLoopBackOff reason with a
    restart count of at least the threshold, never the fallback
    "Unspecified Failure"; the call then issues exactly one delete, for
    that Pod, and records the heal. *)
Theorem X18_announced_heal_is_carried_out (h : Healer) (pod : Pod) (w : World)
  (key reason : string) :
  LogHealRequired key reason ∈ (checkAndHealPod h pod w).2 →
  key = podKey pod
  ∧ (∃ n, util.DefaultRestartThreshold ≤ n
          ∧ reason = "Persistent CrashLoopBackOff (Restarts: " +:+ util.fmt_d n +:+ ")")
  ∧ reason ≠ "Unspecified Failure"
  ∧ deletions (checkAndHealPod h pod w).2 = [ActDelete (Namespace pod) (Name pod)]
  ∧ HealedPods (checkAndHealPod h pod w).1 !! key = Some (recordNow w).
Proof.
  pose proof (IsUnhealthy_range_printed (Namespace pod) (Name pod)
                (ContainerStatuses (Status pod))) as Hp.
  change (util.IsUnhealthy_range _ _ _) with (util.IsUnhealthy pod) in Hp.
  destruct (decide (OwnerReferences pod = [])) as [Ho|Ho].
  { rewrite checkAndHealPod_unmanaged by done. by intros ?%elem_of_nil. }
  destruct (shouldSkip h (podKey pod) (sinceNow w)) eqn:Hs.
  { rewrite checkAndHealPod_skip by done. simpl.
    intros [?|[?|?%elem_of_nil]%elem_of_cons]%elem_of_cons; done. }
  destruct (util.IsUnhealthy pod).1 eqn:Hu.
  - destruct (checkAndHealPod_deletions h pod w)
      as [(_ & _ & _ & Hd & Hm)|([?|[?|?]] & _)]; [|congruence..].
    rewrite Hd, Hm. rewrite checkAndHealPod_heal by done. cbn [snd].
    intros Hin.
    assert (Heq : LogHealRequired key reason
                  = LogHealRequired (podKey pod) (util.GetHealReason pod)).
    { apply elem_of_cons in Hin as [?|Hin]; [done|].
      apply elem_of_cons in Hin as [?|Hin]; [done|].
      apply elem_of_app in Hin as [Hin|Hin]; [by destruct (Hp _ Hin)|].
      apply elem_of_cons in Hin as [?|Hin]; [done|].
      apply elem_of_app in Hin as [Hin|Hin].
      - unfold triggerPodDeletion in Hin.
        apply elem_of_cons in Hin as [?|Hin]; [done|].
        destruct (deleteErr w); apply list_elem_of_singleton in Hin; done.
      - apply elem_of_cons in Hin as [?|Hin]; [done|].
        apply list_elem_of_singleton in Hin. done. }
    injection Heq as -> ->.
    split; [done|].
    destruct (loops_agree (Namespace pod) (Name pod) (ContainerStatuses (Status pod)))
      as [[_ (n & Hn & _ & Hreason)]|(Hu' & _)];
      [|unfold util.IsUnhealthy in Hu; congruence].
    unfold util.GetHealReason. rewrite Hreason.
    split; [by exists n|]. split; [simpl; discriminate|].
    split; [done|]. apply lookup_insert_eq.
  - rewrite checkAndHealPod_healthy by done. cbn [snd]. intros Hin.
    apply elem_of_cons in Hin as [?|Hin]; [done|].
    apply elem_of_cons in Hin as [?|Hin]; [done|]. by destruct (Hp _ Hin).
Qed.

Lemma X18_witness :
  "ns/api-1" = podKey (scenario.api_1 4)
  ∧ (∃ n, util.DefaultRestartThreshold ≤ n
          ∧ "Persistent CrashLoopBackOff (Restarts: 4)"
            = "Persistent CrashLoopBackOff (Restarts: " +:+ util.fmt_d n +:+ ")")
  ∧ "Persistent CrashLoopBackOff (Restarts: 4)" ≠ "Unspecified Failure"
  ∧ deletions (checkAndHealPod scenario.fresh (scenario.api_1 4)
                 (scenario.at_second 5 None)).2 = [ActDelete "ns" "api-1"]
  ∧ HealedPods (checkAndHealPod scenario.fresh (scenario.api_1 4)
                  (scenario.at_second 5 None)).1 !! "ns/api-1"
    = Some (recordNow (scenario.at_second 5 None)).
Proof.
  apply (X18_announced_heal_is_carried_out scenario.fresh (scenario.api_1 4)
           (scenario.at_second 5 None)).
  vm_compute. do 3 right. left.
Defined.

End Announcement.
